(** * Cloudway platform: container lifecycle core

    A shallow embedding of the parts of the platform that the lifecycle
    specification talks about, and the properties proved of them:

    - [Stdcopy]          the stream multiplexer (package stdcopy),
    - [ContainerPlugin]  the deterministic network identity
                         (ContainerPlugin.getIpAddress),
    - [Cgroup]           removal of a resource-control group (Cgroup.delete),
    - [Broker]           user creation and removal (package broker),
    - [ContainerExec]    the exec completion contract (container_exec.go).

    Go's [int] is the 64-bit one of the platforms the code is built for. *)

From stdpp Require Import gmap strings list pretty.
From Stdlib Require Import ZArith Lia.
From Stdlib.Strings Require Import Byte Ascii.

Local Open Scope Z_scope.

(** ** Go values shared by the Go packages *)

(** The error values the modelled packages create or compare against. *)
#[warnings="-register-all"]
Inductive error : Type :=
  | io_EOF
  | io_ErrShortWrite
  | errors_New (msg : string)
  | Errorf_UnrecognizedInputHeader (b : byte)
  | StatusError (Code : Z) (Message : string)
  | DuplicateUserError (name : string)
  | UserNotFoundError (name : string)
  | Errors (errs : list error).

(** [int64(x)]: two's complement wrap-around to 64 bits. *)
Definition int64 (x : Z) : Z := (x + 2 ^ 63) mod 2 ^ 64 - 2 ^ 63.

(** [uint32(x)] *)
Definition uint32 (x : Z) : Z := x mod 2 ^ 32.

(** [byte(x)] for an unsigned [x]: the low eight bits. *)
Definition byte_of_Z (x : Z) : byte :=
  match Byte.of_N (Z.to_N (x mod 256)) with
  | Some b => b
  | None => x00
  end.

Definition Z_of_byte (b : byte) : Z := Z.of_N (Byte.to_N b).

Module Stdcopy.

(** StdType is the type of standard stream a writer can multiplex to. *)
Inductive StdType : Type := Stdin | Stdout | Stderr | Data.

(** [byte(t)]: the constants are declared with [iota]. *)
Definition StdType_byte (t : StdType) : byte :=
  match t with
  | Stdin => x00
  | Stdout => x01
  | Stderr => x02
  | Data => x03
  end.

Definition stdWriterPrefixLen : nat := 8.
Definition stdWriterFdIndex : nat := 0.
Definition stdWriterSizeIndex : nat := 4.
Definition startingBufLen : nat := 32 * 1024 + stdWriterPrefixLen + 1.

(** *** The interfaces io.Writer and io.Reader *)

(** What the type switch at the end of [stdWriter.Write] finds in the
    dynamic type of the underlying writer. *)
Inductive Flushing (W : Type) : Type :=
  | NoFlush
  | VoidFlush (flush : W -> W)
  | ErrFlush (flush : W -> option error * W).
Arguments NoFlush {W}.
Arguments VoidFlush {W} flush.
Arguments ErrFlush {W} flush.

(** [Write w p] is [(n, err)] and the writer afterwards. *)
Class Writer (W : Type) : Type := {
  Write : W -> list byte -> (Z * option error) * W;
  Flusher : Flushing W
}.

(** [Read r n] is a call [r.Read(p)] with [len(p) = n]: the bytes stored at
    the front of [p] (their number is the [n] that Go returns), the error,
    and the reader afterwards. *)
Class Reader (R : Type) : Type :=
  Read : R -> nat -> (list byte * option error) * R.

(** bytes.Buffer as a writer: appends, never fails, has no Flush. *)
Definition Buffer : Type := list byte.

#[export] Instance Buffer_Writer : Writer Buffer := {|
  Write := fun b p => ((Z.of_nat (length p), None), b ++ p);
  Flusher := NoFlush
|}.

(** A writer that keeps apart what each call of [Write] is given. *)
Definition Recorder : Type := list (list byte).

#[export] Instance Recorder_Writer : Writer Recorder := {|
  Write := fun r p => ((Z.of_nat (length p), None), r ++ [p]);
  Flusher := NoFlush
|}.

(** A byte source that hands out its contents in the given pieces, as a
    connection does: a call returns what is left of the first piece, or as
    much of it as fits in [p].  After the last piece every call returns
    [0, io.EOF]; when [eof_with_data] is set, the call that returns the
    last bytes already reports [io.EOF] with them, which io.Reader allows. *)
Record ChunkReader : Type := {
  chunks : list (list byte);
  eof_with_data : bool
}.

#[export] Instance ChunkReader_Reader : Reader ChunkReader := fun r n =>
  match chunks r with
  | [] => (([], Some io_EOF), r)
  | c :: rest =>
      if (length c <=? n)%nat then
        ((c, match rest with
             | [] => if eof_with_data r then Some io_EOF else None
             | _ :: _ => None
             end),
         {| chunks := rest; eof_with_data := eof_with_data r |})
      else
        ((firstn n c, None),
         {| chunks := skipn n c :: rest; eof_with_data := eof_with_data r |})
  end.

(** *** encoding/binary, big endian *)

(** [binary.BigEndian.PutUint32(b, v)], the four bytes written. *)
Definition PutUint32 (v : Z) : list byte :=
  [ byte_of_Z (Z.shiftr v 24); byte_of_Z (Z.shiftr v 16);
    byte_of_Z (Z.shiftr v 8); byte_of_Z v ].

(** [binary.BigEndian.Uint32(b)] *)
Definition Uint32 (b : list byte) : Z :=
  Z.lor (Z.lor (Z.lor (Z_of_byte (nth 3 b x00))
                      (Z.shiftl (Z_of_byte (nth 2 b x00)) 8))
               (Z.shiftl (Z_of_byte (nth 1 b x00)) 16))
        (Z.shiftl (Z_of_byte (nth 0 b x00)) 24).

(** *** The encoder *)

(** stdWriter is wrapper of io.Writer with extra customized info.  The
    embedded interface value may be nil. *)
Record stdWriter (W : Type) : Type := {
  sw_Writer : option W;
  prefix : byte
}.
Arguments sw_Writer {W} _.
Arguments prefix {W} _.

(** [NewWriter(w, t)] *)
Definition NewWriter {W : Type} (w : option W) (t : StdType) : option (stdWriter W) :=
  Some {| sw_Writer := w; prefix := StdType_byte t |}.

(** The header that [Write] builds for a payload of [len] bytes. *)
Definition header (prefix : byte) (len : Z) : list byte :=
  [prefix; x00; x00; x00] ++ PutUint32 (uint32 len).

(** [(w *stdWriter) Write(p)].  The receiver may be a nil pointer and [p]
    a nil slice, both [None] here.  The result is [(n, err)] and the
    receiver afterwards.  The pooled buffer is empty when it is taken
    (it is reset before it is put back), so it holds the header and the
    payload at the time of the write. *)
Definition stdWriter_Write {W : Type} `{Writer W}
    (w : option (stdWriter W)) (p : option (list byte))
  : (Z * option error) * option (stdWriter W) :=
  match w with
  | None => ((0, Some (errors_New "Writer not instantiated")), w)
  | Some sw =>
      match sw_Writer sw with
      | None => ((0, Some (errors_New "Writer not instantiated")), w)
      | Some under =>
          match p with
          | None => ((0, None), w)
          | Some p =>
              let buf := header (prefix sw) (Z.of_nat (length p)) ++ p in
              let '((n, err), under) := Write under buf in
              let n := n - Z.of_nat stdWriterPrefixLen in
              let n := if n <? 0 then 0 else n in
              let '(err, under) :=
                match Flusher with
                | NoFlush => (err, under)
                | VoidFlush flush => (err, flush under)
                | ErrFlush flush => flush under
                end in
              ((n, err), Some {| sw_Writer := Some under; prefix := prefix sw |})
          end
      end
  end.

(** *** The decoder *)

(** The three destinations of [Copy]; each may be a nil interface. *)
Record Sinks (W : Type) : Type := {
  dstout : option W;
  dsterr : option W;
  data : option W
}.
Arguments dstout {W} _.
Arguments dsterr {W} _.
Arguments data {W} _.

Inductive Dest : Type := ToStdout | ToStderr | ToData.

#[export] Instance Dest_eq_dec : EqDecision Dest.
Proof. solve_decision. Defined.

(** The switch on the first byte of the header. *)
Definition select (b : byte) : option Dest :=
  match b with
  | x00 => Some ToStdout
  | x01 => Some ToStdout
  | x02 => Some ToStderr
  | x03 => Some ToData
  | _ => None
  end.

Definition get_sink {W : Type} (s : Sinks W) (d : Dest) : option W :=
  match d with
  | ToStdout => dstout s
  | ToStderr => dsterr s
  | ToData => data s
  end.

Definition set_sink {W : Type} (s : Sinks W) (d : Dest) (w : W) : Sinks W :=
  match d with
  | ToStdout => {| dstout := Some w; dsterr := dsterr s; data := data s |}
  | ToStderr => {| dstout := dstout s; dsterr := Some w; data := data s |}
  | ToData => {| dstout := dstout s; dsterr := dsterr s; data := Some w |}
  end.

(** How one of the two reading loops of [Copy] ends. *)
Inductive Fill (R : Type) : Type :=
  | Filled (src : R) (buf : list byte) (nr : nat)
  | EndOfInput (src : R) (buf : list byte) (nr : nat)
  | ReadFailed (src : R) (er : error)
  | FillOutOfFuel.
Arguments Filled {R} src buf nr.
Arguments EndOfInput {R} src buf nr.
Arguments ReadFailed {R} src er.
Arguments FillOutOfFuel {R}.

(** Both reading loops of [Copy] have the shape
    [for nr < need { nr2, er = src.Read(buf[nr:]); nr += nr2; ... }],
    with [need] the header length in the first and the header length plus
    the frame size in the second.  [Filled]: the loop is left with
    [need <= nr]; [EndOfInput]: io.EOF arrived with [nr < need] and [Copy]
    returns [written, nil]; [ReadFailed]: [Copy] returns [0, er].  A call
    to [Read] stores its bytes at [buf[nr:]] and leaves the rest of [buf]
    as it was. *)
Fixpoint fill {R : Type} `{Reader R} (fuel : nat) (src : R)
    (buf : list byte) (nr need : nat) : Fill R :=
  if (need <=? nr)%nat then Filled src buf nr
  else
    match fuel with
    | O => FillOutOfFuel
    | S fuel =>
        let '((bs, er), src) := Read src (length buf - nr)%nat in
        let buf := firstn nr buf ++ bs ++ skipn (nr + length bs) buf in
        let nr := (nr + length bs)%nat in
        match er with
        | Some io_EOF =>
            if (nr <? need)%nat then EndOfInput src buf nr
            else Filled src buf nr
        | Some er => ReadFailed src er
        | None => fill fuel src buf nr need
        end
    end.

(** The result of [Copy]: [(written, err)], the sinks and the source
    afterwards. *)
Record Copied (W R : Type) : Type := {
  c_written : Z;
  c_err : option error;
  c_sinks : Sinks W;
  c_src : R
}.
Arguments c_written {W R} _.
Arguments c_err {W R} _.
Arguments c_sinks {W R} _.
Arguments c_src {W R} _.

(** The outer loop of [Copy].  [None]: the fuel ran out. *)
Fixpoint Copy_loop {W R : Type} `{Writer W} `{Reader R} (fuel : nat)
    (sinks : Sinks W) (src : R) (buf : list byte) (bufLen nr : nat)
    (written : Z) : option (Copied W R) :=
  match fuel with
  | O => None
  | S fuel =>
      (* Make sure we have at least a full header *)
      match fill fuel src buf nr stdWriterPrefixLen with
      | FillOutOfFuel => None
      | EndOfInput src _ _ =>
          Some {| c_written := written; c_err := None;
                  c_sinks := sinks; c_src := src |}
      | ReadFailed src er =>
          Some {| c_written := 0; c_err := Some er;
                  c_sinks := sinks; c_src := src |}
      | Filled src buf nr =>
          (* Check the first byte to know where to write *)
          match select (nth stdWriterFdIndex buf x00) with
          | None =>
              Some {| c_written := 0;
                      c_err := Some (Errorf_UnrecognizedInputHeader
                                       (nth stdWriterFdIndex buf x00));
                      c_sinks := sinks; c_src := src |}
          | Some out =>
              (* Retrieve the size of the frame *)
              let frameSize :=
                Z.to_nat (Uint32 (firstn 4 (skipn stdWriterSizeIndex buf))) in
              (* Extend the buffer if necessary *)
              let '(buf, bufLen) :=
                if (bufLen <? frameSize + stdWriterPrefixLen)%nat then
                  let buf := buf ++ repeat x00
                    (frameSize + stdWriterPrefixLen - bufLen + 1)%nat in
                  (buf, length buf)
                else (buf, bufLen) in
              match fill fuel src buf nr (frameSize + stdWriterPrefixLen) with
              | FillOutOfFuel => None
              | EndOfInput src _ _ =>
                  Some {| c_written := written; c_err := None;
                          c_sinks := sinks; c_src := src |}
              | ReadFailed src er =>
                  Some {| c_written := 0; c_err := Some er;
                          c_sinks := sinks; c_src := src |}
              | Filled src buf nr =>
                  let next sinks nw :=
                    Copy_loop fuel sinks src
                      (* Move the rest of the buffer to the beginning *)
                      (skipn (frameSize + stdWriterPrefixLen) buf ++
                       skipn (length buf - (frameSize + stdWriterPrefixLen)) buf)
                      bufLen
                      (* Move the index *)
                      (nr - (frameSize + stdWriterPrefixLen))%nat
                      (int64 (written + nw)) in
                  match get_sink sinks out with
                  | Some w =>
                      (* Write the retrieved frame (without header) *)
                      let '((nw, ew), w) :=
                        Write w (firstn frameSize (skipn stdWriterPrefixLen buf)) in
                      let sinks := set_sink sinks out w in
                      match ew with
                      | Some ew =>
                          Some {| c_written := 0; c_err := Some ew;
                                  c_sinks := sinks; c_src := src |}
                      | None =>
                          (* If the frame has not been fully written: error *)
                          if negb (nw =? Z.of_nat frameSize) then
                            Some {| c_written := 0;
                                    c_err := Some io_ErrShortWrite;
                                    c_sinks := sinks; c_src := src |}
                          else next sinks nw
                      end
                  | None => next sinks (Z.of_nat frameSize)
                  end
              end
          end
      end
  end.

(** [Copy(dstout, dsterr, data, src)] *)
Definition Copy {W R : Type} `{Writer W} `{Reader R} (fuel : nat)
    (sinks : Sinks W) (src : R) : option (Copied W R) :=
  Copy_loop fuel sinks src (repeat x00 startingBufLen) startingBufLen 0%nat 0.

(** *** The wire format, for the statements

    A frame as the format describes it: a stream type and a payload. *)
Record Frame : Type := {
  f_type : StdType;
  f_payload : list byte
}.

(** The bytes of a frame on the wire: what [Write] hands to the
    underlying writer for it. *)
Definition encode (f : Frame) : list byte :=
  header (StdType_byte (f_type f)) (Z.of_nat (length (f_payload f))) ++ f_payload f.

(** The value of a byte string read as a big-endian unsigned number. *)
Definition big_endian (bs : list byte) : Z :=
  fold_left (fun acc b => acc * 256 + Z_of_byte b) bs 0.

(** The sink a frame of the given type is for. *)
Definition sink_of (t : StdType) : Dest :=
  match t with
  | Stdin => ToStdout
  | Stdout => ToStdout
  | Stderr => ToStderr
  | Data => ToData
  end.

(** Handing the payload of a frame to its sink; nothing is handed to a
    nil sink. *)
Definition deliver (s : Sinks Buffer) (f : Frame) : Sinks Buffer :=
  match get_sink s (sink_of (f_type f)) with
  | Some b => set_sink s (sink_of (f_type f)) (b ++ f_payload f)
  | None => s
  end.

(** The lengths of the payloads, summed. *)
Definition payload_bytes (fs : list Frame) : Z :=
  fold_right (fun f acc => Z.of_nat (length (f_payload f)) + acc) 0 fs.

(** Three buffers without contents. *)
Definition empty_sinks : Sinks Buffer :=
  {| dstout := Some []; dsterr := Some []; data := Some [] |}.

(** A frame without payload: a header and nothing else. *)
Definition no_payload (t : StdType) : Frame := {| f_type := t; f_payload := [] |}.

(** The byte count as the loop accumulates it, frame after frame. *)
Definition count (written : Z) (fs : list Frame) : Z :=
  fold_left (fun w f => int64 (w + Z.of_nat (length (f_payload f)))) fs written.

(** A frame that the length field can describe. *)
Definition fits (f : Frame) : Prop := Z.of_nat (length (f_payload f)) < 2 ^ 32.

(** The end of a stream that stops inside a frame: fewer than eight bytes,
    or the header of a frame with less payload than it declares. *)
Inductive truncated : list byte -> Prop :=
  | truncated_header (bs : list byte) :
      (length bs < stdWriterPrefixLen)%nat -> truncated bs
  | truncated_payload (t : StdType) (n : Z) (bs : list byte) :
      0 <= n < 2 ^ 32 -> Z.of_nat (length bs) < n ->
      truncated (header (StdType_byte t) n ++ bs).

(** *** Sinks that do not take everything

    A sink of limited capacity, as a pipe whose reader has gone away or a
    file on a full disk: it takes the bytes it has [room] for.  A call
    that asks for more is cut short and returns [broken] as its error,
    which may be nil. *)
Record Pipe : Type := {
  room : nat;
  taken : list byte;
  broken : option error
}.

#[export] Instance Pipe_Writer : Writer Pipe := {|
  Write := fun w p =>
    if (length p <=? room w)%nat then
      ((Z.of_nat (length p), None),
       {| room := room w - length p; taken := taken w ++ p; broken := broken w |})
    else
      ((Z.of_nat (room w), broken w),
       {| room := 0; taken := taken w ++ firstn (room w) p; broken := broken w |});
  Flusher := NoFlush
|}.

(** Handing the payload of a frame to its sink, whatever the sink makes
    of it. *)
Definition hand {W : Type} `{Writer W} (s : Sinks W) (f : Frame) : Sinks W :=
  match get_sink s (sink_of (f_type f)) with
  | Some w => set_sink s (sink_of (f_type f)) (Write w (f_payload f)).2
  | None => s
  end.

(** The sink of the frame, if there is one, takes the whole payload. *)
Definition takes {W : Type} `{Writer W} (s : Sinks W) (f : Frame) : Prop :=
  match get_sink s (sink_of (f_type f)) with
  | Some w => (Write w (f_payload f)).1 = (Z.of_nat (length (f_payload f)), None)
  | None => True
  end.

(** Every frame of the list is taken whole when its turn comes. *)
Fixpoint taken_whole {W : Type} `{Writer W} (s : Sinks W) (fs : list Frame) : Prop :=
  match fs with
  | [] => True
  | f :: fs => takes s f /\ taken_whole (hand s f) fs
  end.

(** What a program leaves in the buffer [b] when it writes the payloads of
    the frames, one call of [Write] for each, through writers that
    [NewWriter] makes for [b] and the type of the frame. *)
Definition write_all (fs : list Frame) (b : Buffer) : Buffer :=
  fold_left
    (fun b f =>
       match (stdWriter_Write (NewWriter (Some b) (f_type f)) (Some (f_payload f))).2 with
       | Some sw => default b (sw_Writer sw)
       | None => b
       end)
    fs b.

End Stdcopy.

(** ** Java values *)

(** [(int) x]: two's complement wrap-around to 32 bits; the result of every
    [int] operation goes through it. *)
Definition int (x : Z) : Z := (x + 2 ^ 31) mod 2 ^ 32 - 2 ^ 31.

(** The same for [long]. *)
Definition long (x : Z) : Z := (x + 2 ^ 63) mod 2 ^ 64 - 2 ^ 63.

Definition Integer_MAX_VALUE : Z := 2 ^ 31 - 1.

Inductive Exception : Type :=
  | IllegalArgumentException (msg : string)
  | ArithmeticException (msg : string)
  | IOException (msg : string).

(** Modelled from the spec: class Config is not among the sources.  A
    configuration is the table of its integer settings, and
    [config.getInt(key, deflt)] is the setting of [key], or [deflt] when
    there is none. *)
Definition getInt (config : gmap string Z) (key : string) (deflt : Z) : Z :=
  default deflt (config !! key).

Module ContainerPlugin.

(** [getIpAddress(host_id)] of a container whose [getUID()] is [uid], under
    the configuration [config].  String conversion of a number is
    [pretty]: decimal digits, with a minus sign for a negative one. *)
Definition getIpAddress (config : gmap string Z) (uid : Z) (host_id : Z)
  : Exception + string :=
  if (uid <? 0) || (Integer_MAX_VALUE <? uid) then
    inl (IllegalArgumentException
           ("User uid " +:+ pretty uid +:+ " must be unsigned 32 bit integers."))
  else if (host_id <? 1) || (127 <? host_id) then
    inl (IllegalArgumentException
           ("Supplied host identifier " +:+ pretty host_id +:+
            " must be between 1 and 127"))
  else
    let uid_wraparound := getInt config "UID_WRAPAROUND" 65536 in
    let ip_offset := getInt config "IP_OFFSET" 1 in
    let ip_offset := if 1000 <=? ip_offset then 0 else ip_offset in
    let ip_offset := if uid <? uid_wraparound then 0 else ip_offset in
    (* Generate an IP (32-bit unsigned) in the user's range *)
    let loopback_start := 0x7F000000 in
    if uid_wraparound =? 0 then inl (ArithmeticException "/ by zero")
    else
      let ip :=
        int (int (loopback_start +
                  int (long (long (Z.rem uid uid_wraparound + ip_offset) * 2 ^ 7)))
             + host_id) in
      (* Return the IP in dotted-quad notation *)
      inr (pretty (Z.shiftr ip 24) +:+ "." +:+
           pretty (Z.land (Z.shiftr ip 16) 0xFF) +:+ "." +:+
           pretty (Z.land (Z.shiftr ip 8) 0xFF) +:+ "." +:+
           pretty (Z.land ip 0xFF)).

(** *** The address in arithmetic, for the statements *)

(** No dot occurs in the string. *)
Fixpoint dotless (s : string) : bool :=
  match s with
  | EmptyString => true
  | String c s => negb (Ascii.eqb c "."%char) && dotless s
  end.

(** Four numbers in decimal, separated by dots. *)
Definition dotted (a b c d : Z) : string :=
  pretty a +:+ "." +:+ pretty b +:+ "." +:+ pretty c +:+ "." +:+ pretty d.

(** Dotted-quad notation: four numbers from 0 to 255. *)
Definition dotted_quad (s : string) : Prop :=
  exists a b c d : Z,
    (0 <= a <= 255) /\ (0 <= b <= 255) /\ (0 <= c <= 255) /\ (0 <= d <= 255) /\
    s = dotted a b c d.

(** The four bytes of a 32-bit address, the first one taken with the sign
    of the address. *)
Definition render (ip : Z) : string :=
  dotted (ip / 2 ^ 24) (ip / 2 ^ 16 mod 256) (ip / 2 ^ 8 mod 256) (ip mod 256).

(** The offset as the specification has it: forced to 0 once the uid
    exceeds the wraparound, or once the offset is 1000 or more. *)
Definition spec_offset (uid_wraparound ip_offset uid : Z) : Z :=
  if (uid_wraparound <? uid) || (1000 <=? ip_offset) then 0 else ip_offset.

(** The offset as the code has it: forced to 0 while the uid is below the
    wraparound, or once the offset is 1000 or more. *)
Definition code_offset (uid_wraparound ip_offset uid : Z) : Z :=
  if (uid <? uid_wraparound) || (1000 <=? ip_offset) then 0 else ip_offset.

(** The address of the formula: the loopback base plus
    [((uid mod wraparound) + offset) << 7] plus the host identifier. *)
Definition address (uid_wraparound offset uid host_id : Z) : Z :=
  0x7F000000 + (uid mod uid_wraparound + offset) * 2 ^ 7 + host_id.

(** *** The lifecycle of a container *)

Section Lifecycle.

(** The operating system as the plugin changes it, and a method that may
    throw: the exception or the result, and the state it leaves. *)
Variable S : Type.

Definition Action (A : Type) : Type := S -> (Exception + A) * S.

(** The methods that a subclass implements. *)
Variable createUser : Action unit.
Variable deleteUser : Action unit.
Variable createHomeDir : Action unit.
Variable killProcs : Z -> option string -> Action unit.

Definition seq (a b : Action unit) : Action unit := fun s =>
  match a s with
  | (inl ex, s) => (inl ex, s)
  | (inr _, s) => b s
  end.

Definition throw (ex : Exception) : Action unit := fun s => (inl ex, s).

(** [try { body } catch (IOException ex) { handler }]: the other
    exceptions of [body] pass. *)
Definition catch_IOException (body : Action unit) (handler : string -> Action unit)
  : Action unit := fun s =>
  match body s with
  | (inl (IOException msg), s) => handler msg s
  | r => r
  end.

(** [nothrow(action)]: every Exception of the action is caught, logged and
    ignored. *)
Definition nothrow (action : Action unit) : Action unit := fun s =>
  match action s with
  | (inl _, s) => (inr tt, s)
  | (inr _, s) => (inr tt, s)
  end.

(** [create()]: create an empty application container. *)
Definition create : Action unit :=
  catch_IOException (seq createUser createHomeDir)
    (fun msg =>
       (* cleanup when creating container failed *)
       seq (nothrow deleteUser) (throw (IOException msg))).

(** [destroy()]: [killProcs()] is [killProcs(0, null)]. *)
Definition destroy : Action unit :=
  seq (nothrow (killProcs 0 None)) (nothrow deleteUser).

(** [stop(term_delay, unit)] *)
Definition stop (term_delay : Z) (time_unit : option string) : Action unit :=
  killProcs term_delay time_unit.

End Lifecycle.

(** For the statements: an operating system of which only the calls made
    are kept, in order, and in which a method throws what [outcome] says. *)
Inductive Method : Type :=
  | CallCreateUser
  | CallDeleteUser
  | CallCreateHomeDir
  | CallKillProcs (term_delay : Z) (time_unit : option string).

Record Os : Type := {
  outcome : Method -> option Exception;
  called : list Method
}.

Definition invoke (m : Method) : Action Os unit := fun s =>
  (match outcome s m with
   | Some ex => inl ex
   | None => inr tt
   end,
   {| outcome := outcome s; called := called s ++ [m] |}).

Definition plugin_create : Action Os unit :=
  create Os (invoke CallCreateUser) (invoke CallDeleteUser) (invoke CallCreateHomeDir).

Definition plugin_destroy : Action Os unit :=
  destroy Os (invoke CallDeleteUser) (fun d u => invoke (CallKillProcs d u)).

End ContainerPlugin.

Module Cgroup.

(** *** The host: files, cgroup directories, processes *)

Record Task : Type := {
  pid : Z;
  tid : Z;
  name : string;
  t_uid : Z;
  gid : Z
}.

(** What [delete] sees and changes of the host.  [files]: the regular
    files by path, with their bytes as a string; /etc is writable.
    [dirs]: the directories of the cgroup file systems by path, each with
    the answer to: is it in use (tasks or child groups inside), so that it
    cannot be removed?  [procs]: the processes that [processes()] finds
    under /proc.  [signals]: the calls [posix.kill(pid, signal)] made so
    far, the latest first. *)
Record Host : Type := {
  files : gmap string string;
  dirs : gmap string bool;
  procs : list Task;
  signals : list (Z * Z)
}.

(** A method that may throw: the exception or the result, and the host
    as it is left. *)
Definition IO (A : Type) : Type := Host -> (Exception + A) * Host.

Definition ret {A : Type} (x : A) : IO A := fun h => (inr x, h).

Definition bind {A B : Type} (m : IO A) (k : A -> IO B) : IO B := fun h =>
  match m h with
  | (inl e, h) => (inl e, h)
  | (inr x, h) => k x h
  end.

Notation "x <- m ;; k" := (bind m (fun x => k))
  (at level 20, m at level 99, k at level 200).
Notation "m ;; k" := (bind m (fun _ => k))
  (at level 100, k at level 200, right associativity).

Definition LF : ascii := "010"%char.
Definition CR : ascii := "013"%char.

(** [Signal.SIGUSR2.intValue()] on Linux. *)
Definition SIGUSR2 : Z := 12.

Definition CGRULES : string := "/etc/cgrules.conf".
Definition CGCONFIG : string := "/etc/cgconfig.conf".

(** *** RandomAccessFile *)

(** The lines that a loop [while ((line = in.readLine()) != null)] reads
    from a file with the bytes [s], [line] being what is read of the
    current line.  A line ends at a line feed, at a carriage return, at a
    carriage return followed by a line feed, or at the end of the file; at
    the end of the file a line without bytes is no line. *)
Fixpoint readLines_from (line : string) (s : string) : list string :=
  match s with
  | EmptyString =>
      match line with
      | EmptyString => []
      | _ => [line]
      end
  | String c s' =>
      if Ascii.eqb c LF then line :: readLines_from EmptyString s'
      else if Ascii.eqb c CR then
        match s' with
        | String c' s'' =>
            if Ascii.eqb c' LF then line :: readLines_from EmptyString s''
            else line :: readLines_from EmptyString s'
        | EmptyString => line :: readLines_from EmptyString s'
        end
      else readLines_from (line +:+ String c EmptyString) s'
  end.

Definition readLines (s : string) : list string := readLines_from EmptyString s.

(** Neither a line feed nor a carriage return occurs in the string. *)
Fixpoint eol_free (s : string) : bool :=
  match s with
  | EmptyString => true
  | String c s => negb (Ascii.eqb c LF) && negb (Ascii.eqb c CR) && eol_free s
  end.

(** The lines, each followed by a line feed. *)
Fixpoint unlines (ls : list string) : string :=
  match ls with
  | [] => EmptyString
  | l :: ls => l +:+ String LF (unlines ls)
  end.

(** Writing [bytes] from position 0 into a file that holds [old]: the file
    is not truncated. *)
Definition write_over (old bytes : string) : string :=
  bytes +:+ String.substring (String.length bytes)
                             (String.length old - String.length bytes) old.

(** [overwrite_with_safe_swap(file, action)].  [action input] is what the
    action writes to [out] when [in] holds [input].  A missing [file] is
    read as /dev/null.  The temporary file is opened for reading and
    writing, which creates it or opens it as it is; at the end it is moved
    onto [file]. *)
Definition overwrite_with_safe_swap (file : string) (action : string -> string)
  : IO unit := fun h =>
  let tempfile := file +:+ "~" in
  let input := default EmptyString (files h !! file) in
  let out := write_over (default EmptyString (files h !! tempfile)) (action input) in
  (inr tt,
   {| files := <[file := out]> (delete tempfile (files h));
      dirs := dirs h; procs := procs h; signals := signals h |}).

(** [processes()]: the tasks found under /proc. *)
Definition processes : IO (list Task) := fun h => (inr (procs h), h).

(** [posix.kill(pid, signal)]; the result is not looked at. *)
Definition kill (pid signal : Z) : IO unit := fun h =>
  (inr tt,
   {| files := files h; dirs := dirs h; procs := procs h;
      signals := (pid, signal) :: signals h |}).

(** [Files.deleteIfExists(path)] on a directory of a cgroup file system:
    nothing happens when it does not exist, and it cannot be removed while
    it is in use. *)
Definition deleteIfExists (path : string) : IO bool := fun h =>
  match dirs h !! path with
  | None => (inr false, h)
  | Some true => (inl (IOException path), h)
  | Some false =>
      (inr true,
       {| files := files h; dirs := delete path (dirs h);
          procs := procs h; signals := signals h |})
  end.

(** [forEach] with an action that may throw: the first exception ends it.

    Modelled from the spec: class IO is not among the sources.  [IO.wrap]
    lets the action throw its IOException out of [forEach], and [IO.caught]
    hands that exception to the caller. *)
Fixpoint forEach {A : Type} (action : A -> IO unit) (l : list A) : IO unit :=
  match l with
  | [] => ret tt
  | x :: l => action x ;; forEach action l
  end.

(** *** class Cgroup *)

Section Static.

(** The static fields, set when the class is loaded. *)
Variable CG_ROOT : string.
Variable CG_SUBSYSTEMS : list string.

(** An instance.  [cgpaths] holds the entries of the map that the
    constructor builds, subsystem and path, in the order in which the map
    is traversed. *)
Record Cgroup : Type := {
  uuid : string;
  uid : Z;
  cgpaths : list (string * string)
}.

(** The loop that copies [in] to [out] without the lines for which [skip]
    holds. *)
Definition copy_unless (skip : string -> bool) (input : string) : string :=
  fold_left
    (fun out line =>
       if skip line then out else (out +:+ line) +:+ String LF EmptyString)
    (readLines input) EmptyString.

(** [String.join(sep, l)] *)
Fixpoint join (sep : string) (l : list string) : string :=
  match l with
  | [] => EmptyString
  | [x] => x
  | x :: l => x +:+ sep +:+ join sep l
  end.

(** [update_cgrules(recreate)]: removes the requested uuid and re-adds it
    at the end if asked to, then tells cgrulesengd to reload. *)
Definition update_cgrules (this : Cgroup) (recreate : bool) : IO unit :=
  overwrite_with_safe_swap CGRULES (fun input =>
    copy_unless (String.prefix (uuid this)) input +:+
    (if recreate then
       uuid this +:+ String "009"%char EmptyString +:+
       join "," CG_SUBSYSTEMS +:+ String "009"%char EmptyString +:+
       CG_ROOT +:+ "/" +:+ uuid this +:+ String LF EmptyString
     else EmptyString)) ;;
  ps <- processes ;;
  forEach (fun p => kill (pid p) SIGUSR2)
          (filter (fun p => name p = "cgrulesengd") ps).

(** [update_cgconfig(newcfg)]: removes the requested path and re-adds it
    at the end if a new configuration is provided.  [newcfg] is [None] for
    null, and otherwise the text that [gen_cgconfig] makes of the map. *)
Definition update_cgconfig (this : Cgroup) (newcfg : option string) : IO unit :=
  let prefix := "group " +:+ CG_ROOT +:+ "/" +:+ uuid this +:+ " " in
  overwrite_with_safe_swap CGCONFIG (fun input =>
    copy_unless (String.prefix prefix) input +:+
    match newcfg with
    | Some cfg => prefix +:+ cfg +:+ String LF EmptyString
    | None => EmptyString
    end).

(** [cgdelete()] *)
Definition cgdelete (this : Cgroup) : IO unit :=
  forEach (fun e => _ <- deleteIfExists e.2 ;; ret tt) (cgpaths this).

(** [delete()]: delete a cgroup namespace for the application container. *)
Definition delete (this : Cgroup) : IO unit :=
  update_cgconfig this None ;;
  update_cgrules this false ;;
  cgdelete this.

(** *** For the statements *)

(** A line of the file [file] starts with [start]. *)
Definition has_line (h : Host) (file start : string) : Prop :=
  exists line,
    line ∈ readLines (default EmptyString (files h !! file)) /\
    String.prefix start line = true.

(** The start of the lines of the configuration file that belong to the
    cgroup. *)
Definition group_prefix (this : Cgroup) : string :=
  "group " +:+ CG_ROOT +:+ "/" +:+ uuid this +:+ " ".

(** No directory of the cgroup is left. *)
Definition no_directory (this : Cgroup) (h : Host) : Prop :=
  forall subsys path, (subsys, path) ∈ cgpaths this -> dirs h !! path = None.

(** The line of the rules file that [update_cgrules(true)] writes for the
    cgroup, without the line feed. *)
Definition rules_line (this : Cgroup) : string :=
  uuid this +:+ String "009"%char EmptyString +:+
  join "," CG_SUBSYSTEMS +:+ String "009"%char EmptyString +:+
  CG_ROOT +:+ "/" +:+ uuid this.

(** The lines of a file of the host. *)
Definition lines_of (h : Host) (file : string) : list string :=
  readLines (default EmptyString (files h !! file)).

(** The signals that a reload of the rules sends: SIGUSR2 to every process
    named cgrulesengd, in the order of the process list. *)
Definition reload_signals (h : Host) : list (Z * Z) :=
  map (fun p => (pid p, SIGUSR2)) (filter (fun p => name p = "cgrulesengd") (procs h)).

End Static.

(** *** Parameters and configuration stanzas *)

(** [s.indexOf(c)]: the index of the first occurrence, or -1. *)
Fixpoint indexOf (c : ascii) (s : string) : Z :=
  match s with
  | EmptyString => -1
  | String a s =>
      if Ascii.eqb a c then 0
      else let i := indexOf c s in if i =? -1 then -1 else i + 1
  end.

(** [s.substring(begin, end)] and [s.substring(begin)], for indices in
    range, as they are where the code calls them. *)
Definition substring (s : string) (beginIndex endIndex : Z) : string :=
  String.substring (Z.to_nat beginIndex) (Z.to_nat (endIndex - beginIndex)) s.

Definition substring_from (s : string) (beginIndex : Z) : string :=
  substring s beginIndex (Z.of_nat (String.length s)).

(** The pieces of [s] between the occurrences of [c]. *)
Fixpoint pieces (c : ascii) (s : string) : list string :=
  match s with
  | EmptyString => [EmptyString]
  | String a s =>
      if Ascii.eqb a c then EmptyString :: pieces c s
      else
        match pieces c s with
        | p :: ps => String a p :: ps
        | [] => [String a EmptyString]
        end
  end.

Fixpoint drop_trailing_empty (l : list string) : list string :=
  match l with
  | [] => []
  | x :: l =>
      match drop_trailing_empty l with
      | [] => if String.eqb x EmptyString then [] else [x]
      | l' => x :: l'
      end
  end.

(** [s.split(regex)] for a regex that is the one character [c]: the array
    is [s] alone when [c] does not occur; otherwise it holds the pieces
    between the occurrences, without the empty strings at its end. *)
Definition split (c : ascii) (s : string) : list string :=
  if indexOf c s =? -1 then [s] else drop_trailing_empty (pieces c s).

(** [map.put(k, v)] on a LinkedHashMap, kept as its entries in iteration
    order: the value of a key that is there is replaced in place, a new key
    goes to the end. *)
Fixpoint put {V : Type} (k : string) (v : V) (m : list (string * V))
  : list (string * V) :=
  match m with
  | [] => [(k, v)]
  | (k', v') :: m =>
      if String.eqb k' k then (k', v) :: m else (k', v') :: put k v m
  end.

(** The value of a parameter: a string, or a map from strings to strings
    (for [format_cgparam], the strings that the values of the map are
    converted to). *)
Inductive cgparam : Type :=
  | Text (s : string)
  | Table (m : list (string * string)).

(** [parse_cgparam(pval)] *)
Definition parse_cgparam (pval : string) : cgparam :=
  if (indexOf LF pval =? -1) && (indexOf " "%char pval =? -1) then Text pval
  else
    Table
      (fold_left
         (fun pmap line =>
            let i := indexOf " "%char line in
            if 0 <? i then
              put (substring line 0 i) (substring_from line (i + 1)) pmap
            else pmap)
         (split LF pval) []).

(** [format_cgparam(val)] *)
Definition format_cgparam (val : cgparam) : string :=
  match val with
  | Table m =>
      join (String LF EmptyString) (map (fun e => e.1 +:+ " " +:+ e.2) m)
  | Text s => s
  end.

(** The argument of [gen_cgconfig]: a map, with its entries in iteration
    order, or another object, of which the stanza shows the string form. *)
#[warnings="-register-all"]
Inductive cgdata : Type :=
  | Scalar (text : string)
  | Group (entries : list (string * cgdata)).

(** [gen_cgconfig(data)]: generate configuration stanzas for cgconfig.conf
    from a map. *)
Fixpoint gen_cgconfig (data : cgdata) : string :=
  match data with
  | Group entries =>
      "{" +:+
      (fix each (entries : list (string * cgdata)) : string :=
         match entries with
         | [] => EmptyString
         | (k, v) :: entries =>
             (" " +:+ k +:+ " ") +:+ gen_cgconfig v +:+ each entries
         end) entries +:+
      "}"
  | Scalar text => "= " +:+ text +:+ "; "
  end.

(** No key and no scalar of the data holds a line end. *)
Fixpoint cgdata_eol_free (data : cgdata) : bool :=
  match data with
  | Group entries =>
      (fix each (entries : list (string * cgdata)) : bool :=
         match entries with
         | [] => true
         | (k, v) :: entries => eol_free k && cgdata_eol_free v && each entries
         end) entries
  | Scalar text => eol_free text
  end.

(** The character does not occur in the string. *)
Fixpoint free_of (c : ascii) (s : string) : bool :=
  match s with
  | EmptyString => true
  | String a s => negb (Ascii.eqb a c) && free_of c s
  end.

(** A parameter value that [format_cgparam] writes so that it can be read
    back: a string without space and line feed; or a map that is not empty,
    whose keys are not empty and hold no space, and whose keys and values
    hold no line feed. *)
Definition readable (val : cgparam) : Prop :=
  match val with
  | Text s => free_of LF s = true /\ free_of " "%char s = true
  | Table m =>
      m <> [] /\ NoDup (map fst m) /\
      Forall (fun e =>
                e.1 <> EmptyString /\ free_of " "%char e.1 = true /\
                free_of LF e.1 = true /\ free_of LF e.2 = true) m
  end.

(** A host for the examples: the group u1 with two subsystems, a stale
    temporary file next to the rules file, and the rules daemon running. *)
Definition example_host : Host := {|
  files :=
    {[ CGRULES := "u1" +:+ String "009"%char "cpu,memory" +:+ String LF "u2 x" +:+
                  String LF "u1b";
       CGCONFIG := "group /cloudway/u1 { }" +:+ String LF "group /cloudway/u2 { }" +:+
                   String LF EmptyString;
       "/etc/cgrules.conf~" := "0123456789012345678" +:+ String LF "u1 stale" ]};
  dirs := {[ "/sys/fs/cgroup/cpu/cloudway/u1" := false;
             "/sys/fs/cgroup/memory/cloudway/u1" := false ]};
  procs := [ {| pid := 7; tid := 7; name := "cgrulesengd"; t_uid := 0; gid := 0 |};
             {| pid := 8; tid := 8; name := "sh"; t_uid := 1000; gid := 1000 |} ];
  signals := []
|}.

Definition example_cgroup : Cgroup := {|
  uuid := "u1";
  uid := 1000;
  cgpaths := [ ("cpu", "/sys/fs/cgroup/cpu/cloudway/u1");
               ("memory", "/sys/fs/cgroup/memory/cloudway/u1") ]
|}.

End Cgroup.

Module Broker.

(** *** The collaborators of the broker *)

(** userdb.BasicUser, as far as the broker looks at it. *)
Record BasicUser : Type := {
  Name : string;
  Namespace : string
}.

(** What the user database keeps under a user name. *)
Record Stored : Type := {
  st_Namespace : string;
  st_Password : string
}.

Record Container : Type := {
  ID : string;
  c_Namespace : string
}.

(** The calls that the broker makes. *)
Inductive Call : Type :=
  | UsersCreate (name : string)
  | UsersFind (name : string)
  | UsersRemove (name : string)
  | SCMCreateNamespace (namespace : string)
  | SCMRemoveNamespace (namespace : string)
  | HubRemoveNamespace (namespace : string)
  | FindContainers (namespace : string)
  | DestroyContainer (id : string).

(** The world around the broker.  [users]: the user database.  [scm],
    [hub]: the namespaces that the SCM and the plugin hub know.
    [containers]: the containers of the engine.  [faults]: the calls to the
    SCM and to the engine that fail, with the error they fail with.
    [calls]: the calls made so far, in order. *)
Record World : Type := {
  users : gmap string Stored;
  scm : gset string;
  hub : gset string;
  containers : list Container;
  faults : Call -> option error;
  calls : list Call
}.

(** A Go function in this world: its results, and the world afterwards. *)
Definition Op (A : Type) : Type := World -> A * World.

Definition ret {A : Type} (x : A) : Op A := fun w => (x, w).

Definition bind {A B : Type} (m : Op A) (k : A -> Op B) : Op B := fun w =>
  let '(x, w) := m w in k x w.

Notation "x <- m ;; k" := (bind m (fun x => k))
  (at level 20, m at level 99, k at level 200).

(** Noting a call. *)
Definition call (c : Call) : Op unit := fun w =>
  (tt, {| users := users w; scm := scm w; hub := hub w;
          containers := containers w; faults := faults w;
          calls := calls w ++ [c] |}).

Definition set_users (f : gmap string Stored -> gmap string Stored) : Op unit :=
  fun w =>
  (tt, {| users := f (users w); scm := scm w; hub := hub w;
          containers := containers w; faults := faults w; calls := calls w |}).

Definition set_scm (f : gset string -> gset string) : Op unit := fun w =>
  (tt, {| users := users w; scm := f (scm w); hub := hub w;
          containers := containers w; faults := faults w; calls := calls w |}).

Definition set_hub (f : gset string -> gset string) : Op unit := fun w =>
  (tt, {| users := users w; scm := scm w; hub := f (hub w);
          containers := containers w; faults := faults w; calls := calls w |}).

Definition set_containers (f : list Container -> list Container) : Op unit :=
  fun w =>
  (tt, {| users := users w; scm := scm w; hub := hub w;
          containers := f (containers w); faults := faults w; calls := calls w |}).

Definition get {A : Type} (f : World -> A) : Op A := fun w => (f w, w).

(** Modelled from the spec: the user database (package userdb) is not
    among the sources.  It has [Create(user, password)], [Find(username,
    &out)] and [Remove(username)]; here it is a table by user name, in which
    creating a name that exists and finding or removing one that does not
    are the errors. *)
Definition Users_Create (user : BasicUser) (password : string) : Op (option error) :=
  _ <- call (UsersCreate (Name user)) ;;
  db <- get users ;;
  match db !! Name user with
  | Some _ => ret (Some (DuplicateUserError (Name user)))
  | None =>
      _ <- set_users (insert (Name user)
             {| st_Namespace := Namespace user; st_Password := password |}) ;;
      ret None
  end.

Definition Users_Find (username : string) : Op (error + BasicUser) :=
  _ <- call (UsersFind username) ;;
  db <- get users ;;
  match db !! username with
  | Some st => ret (inr {| Name := username; Namespace := st_Namespace st |})
  | None => ret (inl (UserNotFoundError username))
  end.

Definition Users_Remove (username : string) : Op (option error) :=
  _ <- call (UsersRemove username) ;;
  db <- get users ;;
  match db !! username with
  | Some _ => _ <- set_users (delete username) ;; ret None
  | None => ret (Some (UserNotFoundError username))
  end.

(** Modelled from the spec: the SCM client, the plugin hub and the
    container engine are external collaborators.  A call to them does what
    its name says, unless the world makes it fail. *)
Definition SCM_CreateNamespace (namespace : string) : Op (option error) :=
  _ <- call (SCMCreateNamespace namespace) ;;
  fault <- get (fun w => faults w (SCMCreateNamespace namespace)) ;;
  match fault with
  | Some err => ret (Some err)
  | None => _ <- set_scm (fun s => {[ namespace ]} ∪ s) ;; ret None
  end.

Definition SCM_RemoveNamespace (namespace : string) : Op (option error) :=
  _ <- call (SCMRemoveNamespace namespace) ;;
  fault <- get (fun w => faults w (SCMRemoveNamespace namespace)) ;;
  match fault with
  | Some err => ret (Some err)
  | None => _ <- set_scm (fun s => s ∖ {[ namespace ]}) ;; ret None
  end.

Definition Hub_RemoveNamespace (namespace : string) : Op unit :=
  _ <- call (HubRemoveNamespace namespace) ;;
  set_hub (fun s => s ∖ {[ namespace ]}).

Definition FindInNamespace (namespace : string) : Op (error + list Container) :=
  _ <- call (FindContainers namespace) ;;
  fault <- get (fun w => faults w (FindContainers namespace)) ;;
  match fault with
  | Some err => ret (inl err)
  | None =>
      cs <- get containers ;;
      ret (inr (filter (fun c => c_Namespace c = namespace) cs))
  end.

Definition Destroy (c : Container) : Op (option error) :=
  _ <- call (DestroyContainer (ID c)) ;;
  fault <- get (fun w => faults w (DestroyContainer (ID c))) ;;
  match fault with
  | Some err => ret (Some err)
  | None => _ <- set_containers (filter (fun c' => ID c' <> ID c)) ;; ret None
  end.

(** Modelled from the spec: type Errors of package pkg/errors is not among
    the sources.  It is the error aggregate that collects zero or more
    failures: [Add] keeps an error that is not nil, and [Err] is nil when
    nothing was kept and the aggregate otherwise. *)
Definition Errors_Add (errors : list error) (err : option error) : list error :=
  match err with
  | Some err => errors ++ [err]
  | None => errors
  end.

Definition Errors_Err (errors : list error) : option error :=
  match errors with
  | [] => None
  | _ :: _ => Some (Errors errors)
  end.

(** *** The broker *)

(** [(br *Broker) CreateUser(user, password)] *)
Definition CreateUser (user : BasicUser) (password : string) : Op (option error) :=
  let basic := user in
  (* create the user in the database *)
  err <- Users_Create user password ;;
  match err with
  | Some err => ret (Some err)
  | None =>
      (* create the namespace in the SCM *)
      if bool_decide (Namespace basic <> EmptyString) then
        err <- SCM_CreateNamespace (Namespace basic) ;;
        match err with
        | Some err =>
            _ <- Users_Remove (Name basic) ;;
            ret (Some err)
        | None => ret None
        end
      else ret None
  end.

(** The loop [for _, c := range cs { errors.Add(c.Destroy(ctx)) }] *)
Fixpoint destroy_all (cs : list Container) (errors : list error) : Op (list error) :=
  match cs with
  | [] => ret errors
  | c :: cs =>
      err <- Destroy c ;;
      destroy_all cs (Errors_Add errors err)
  end.

(** [(br *Broker) RemoveUser(username)] *)
Definition RemoveUser (username : string) : Op (option error) :=
  found <- Users_Find username ;;
  match found with
  | inl err => ret (Some err)
  | inr user =>
      let errors := [] in
      errors <-
        (if bool_decide (Namespace user <> EmptyString) then
           (* remove all containers belongs to the user *)
           found <- FindInNamespace (Namespace user) ;;
           errors <-
             match found with
             | inl err => ret (Errors_Add errors (Some err))
             | inr cs => destroy_all cs errors
             end ;;
           (* remove the namespace from SCM *)
           err <- SCM_RemoveNamespace (Namespace user) ;;
           let errors := Errors_Add errors err in
           (* remove the namespace from the plugin hub *)
           _ <- Hub_RemoveNamespace (Namespace user) ;;
           ret errors
         else ret errors) ;;
      (* remove user from user database *)
      err <- Users_Remove (Name user) ;;
      let errors := Errors_Add errors err in
      ret (Errors_Err errors)
  end.

(** [(br *Broker) GetUser(username)]: the user that [Find] has filled in,
    which is the zero value when [Find] fails, and the error. *)
Definition GetUser (username : string) : Op (BasicUser * option error) :=
  found <- Users_Find username ;;
  match found with
  | inr user => ret (user, None)
  | inl err => ret ({| Name := EmptyString; Namespace := EmptyString |}, Some err)
  end.

(** *** For the statements *)

(** The failures of destroying the containers [cs], in order. *)
Definition destroy_failures (w : World) (cs : list Container) : list error :=
  omap (fun c => faults w (DestroyContainer (ID c))) cs.

(** The containers that the engine finds in a namespace. *)
Definition found_in (w : World) (namespace : string) : list Container :=
  filter (fun c => c_Namespace c = namespace) (containers w).

(** The failure of the call [c], as a list. *)
Definition failure (w : World) (c : Call) : list error :=
  match faults w c with
  | Some err => [err]
  | None => []
  end.

(** A world for the examples: alice has the namespace team and two
    containers there, bob has no namespace; the SCM is down, and the first
    of the containers cannot be destroyed. *)
Definition example_world : World := {|
  users := {[ "alice" := {| st_Namespace := "team"; st_Password := "a" |};
              "bob" := {| st_Namespace := EmptyString; st_Password := "b" |} ]};
  scm := {[ "team" ]};
  hub := {[ "team" ]};
  containers := [ {| ID := "c1"; c_Namespace := "team" |};
                  {| ID := "c2"; c_Namespace := "team" |};
                  {| ID := "c3"; c_Namespace := "other" |} ];
  faults := fun c =>
    match c with
    | SCMCreateNamespace _ => Some (errors_New "scm: connection refused")
    | SCMRemoveNamespace _ => Some (errors_New "scm: connection refused")
    | DestroyContainer id =>
        if String.eqb id "c1" then Some (errors_New "engine: busy") else None
    | _ => None
    end;
  calls := []
|}.

End Broker.

Module ContainerExec.
Import Stdcopy.

(** types.ExecConfig, the fields that [Exec] sets. *)
Record ExecConfig : Type := {
  User : string;
  Tty : bool;
  AttachStdin : bool;
  AttachStdout : bool;
  AttachStderr : bool;
  Cmd : list string
}.

Record Container : Type := {
  ID : string
}.

(** The container engine as one call of [Exec] meets it: whether a client
    can be had, and the answers of the client.  The answer to an attach is
    the connection, of which the model keeps the byte stream that the
    engine sends: the output of the process, multiplexed. *)
Record Engine : Type := {
  docker_client : option error;
  ContainerExecCreate : string -> ExecConfig -> error + string;
  ContainerExecAttach : string -> ExecConfig -> error + ChunkReader;
  ContainerExecInspect : string -> error + Z
}.

(** [pumpStreams(ctx, stdin, stdout, stderr, resp)] with the context of
    [Exec], context.Background(), which is never done: the call waits for
    the copy of the output when there is a sink for it, also when the copy
    of the input ends first, and returns the error of the copy; without a
    sink it returns nil when the input has been copied.  The result is the
    error, and the two sinks afterwards; [None] when the fuel of the copy
    runs out.

    Modelled from the spec: [stdCopy] is not among the sources.  It is the
    decoder of the stream multiplexer for the two sinks, [Stdcopy.Copy]
    without a sink for the data channel. *)
Definition pumpStreams (fuel : nat) (stdin : option (list byte))
    (stdout stderr : option Buffer) (resp : ChunkReader)
  : option (option error * (option Buffer * option Buffer)) :=
  match stdout, stderr with
  | None, None => Some (None, (stdout, stderr))
  | _, _ =>
      match Copy fuel {| dstout := stdout; dsterr := stderr; data := None |} resp with
      | Some r => Some (c_err r, (dstout (c_sinks r), dsterr (c_sinks r)))
      | None => None
      end
  end.

(** [(c *Container) Exec(user, stdin, stdout, stderr, cmd...)]: the error
    returned, and the two sinks afterwards. *)
Definition Exec (fuel : nat) (engine : Engine) (c : Container) (user : string)
    (stdin : option (list byte)) (stdout stderr : option Buffer)
    (cmd : list string)
  : option (option error * (option Buffer * option Buffer)) :=
  match docker_client engine with
  | Some err => Some (Some err, (stdout, stderr))
  | None =>
      let execConfig := {|
        User := user;
        Tty := false;
        AttachStdin := match stdin with Some _ => true | None => false end;
        AttachStdout := true;
        AttachStderr := true;
        Cmd := cmd
      |} in
      match ContainerExecCreate engine (ID c) execConfig with
      | inl err => Some (Some err, (stdout, stderr))
      | inr execId =>
          match ContainerExecAttach engine execId execConfig with
          | inl err => Some (Some err, (stdout, stderr))
          | inr resp =>
              match pumpStreams fuel stdin stdout stderr resp with
              | None => None
              | Some (Some err, sinks) => Some (Some err, sinks)
              | Some (None, sinks) =>
                  match ContainerExecInspect engine execId with
                  | inl err => Some (Some err, sinks)
                  | inr ExitCode =>
                      if negb (ExitCode =? 0) then
                        Some (Some (StatusError ExitCode EmptyString), sinks)
                      else Some (None, sinks)
                  end
              end
          end
      end
  end.

Definition in_cutset (c : ascii) (cutset : string) : bool :=
  existsb (Ascii.eqb c) (String.list_ascii_of_string cutset).

(** [strings.TrimRight(s, cutset)] for a cutset of ASCII characters: the
    bytes at the end of [s] that are in the cutset are removed. *)
Fixpoint TrimRight (s cutset : string) : string :=
  match s with
  | EmptyString => EmptyString
  | String c s =>
      match TrimRight s cutset with
      | EmptyString => if in_cutset c cutset then EmptyString else String c EmptyString
      | t => String c t
      end
  end.

Definition CRLF : string := String "013"%char (String "010"%char EmptyString).

(** [chomp(b)]: [strings.TrimRight(b.String(), "\r\n")] *)
Definition chomp (b : Buffer) : string :=
  TrimRight (String.string_of_list_byte b) CRLF.

(** [(c *Container) ExecE(user, in, out, cmd...)]: the error returned, and
    [out] afterwards. *)
Definition ExecE (fuel : nat) (engine : Engine) (c : Container) (user : string)
    (input : option (list byte)) (out : option Buffer) (cmd : list string)
  : option (option error * option Buffer) :=
  let errbuf : Buffer := [] in
  match Exec fuel engine c user input out (Some errbuf) cmd with
  | None => None
  | Some (err, (out, errbuf)) =>
      let errbuf := default [] errbuf in
      let err :=
        match err with
        | Some (StatusError Code Message) =>
            if String.eqb Message EmptyString then
              Some (StatusError Code (chomp errbuf))
            else err
        | _ => err
        end in
      Some (err, out)
  end.

(** [(c *Container) ExecQ(user, cmd...)] *)
Definition ExecQ (fuel : nat) (engine : Engine) (c : Container) (user : string)
    (cmd : list string) : option (option error * option Buffer) :=
  ExecE fuel engine c user None None cmd.

(** [(c *Container) Subst(user, in, cmd...)] *)
Definition Subst (fuel : nat) (engine : Engine) (c : Container) (user : string)
    (input : option (list byte)) (cmd : list string)
  : option (string * option error) :=
  let outbuf : Buffer := [] in
  let errbuf : Buffer := [] in
  match Exec fuel engine c user input (Some outbuf) (Some errbuf) cmd with
  | None => None
  | Some (err, (outbuf, errbuf)) =>
      let outbuf := default [] outbuf in
      let errbuf := default [] errbuf in
      let err :=
        match err with
        | Some (StatusError Code Message) =>
            if String.eqb Message EmptyString then
              Some (StatusError Code (chomp errbuf))
            else err
        | _ => err
        end in
      Some (chomp outbuf, err)
  end.

(** *** For the statements *)

(** What the process wrote to a stream: the payloads of the frames for
    the sink [d], in order. *)
Definition written_to (d : Dest) (fs : list Frame) : list byte :=
  concat (map f_payload
            (filter (fun f => sink_of (f_type f) = d) fs)).

(** [t] is [s] without the carriage returns and line feeds at its end. *)
Definition chomped (s t : string) : Prop :=
  exists tail,
    s = t +:+ tail /\
    forallb (fun c => in_cutset c CRLF) (String.list_ascii_of_string tail) = true /\
    (forall c t', t = t' +:+ String c EmptyString -> in_cutset c CRLF = false).

(** An engine for the examples: the process writes a line to each of its
    output streams and exits with code 2. *)
Definition example_output : list Frame :=
  [ {| f_type := Stdout; f_payload := [x6f; x6b; x0a] |};
    {| f_type := Stderr; f_payload := [x62; x6f; x6f; x6d; x0d; x0a] |} ].

Definition example_engine : Engine := {|
  docker_client := None;
  ContainerExecCreate := fun _ _ => inr "exec-1";
  ContainerExecAttach := fun _ _ =>
    inr {| chunks := [concat (map encode example_output)];
           eof_with_data := false |};
  ContainerExecInspect := fun _ => inr 2
|}.

End ContainerExec.

Module IntSeq.

(** A sequence of integer values.  The constructors [nil()] and
    [cons(head, tail)] and the lazy [cons(head, supplier)] are those of
    IntSeqImpl, which is not among the sources; a sequence that they build
    from finitely many elements is the list of its elements, and a lazy
    tail whose supplier has no effect is the tail that it supplies.  The
    elements are [int]s. *)
Definition IntSeq : Type := list Z.

Definition isEmpty (this : IntSeq) : bool :=
  match this with
  | [] => true
  | _ :: _ => false
  end.

(** [peek()]: the head element as an optional. *)
Definition peek (this : IntSeq) : option Z :=
  match this with
  | [] => None
  | head :: _ => Some head
  end.

(** An IntPredicate is an object: it may have state, as the counters of
    [take] and [drop] have.  [test st t] is the answer of [test(t)] in the
    state [st], and the state afterwards. *)
Definition IntPredicate (St : Type) : Type := St -> Z -> bool * St.

(** A predicate without state. *)
Definition stateless (p : Z -> bool) : IntPredicate unit := fun st t => (p t, st).

(** [predicate.negate()] *)
Definition negate (p : Z -> bool) : Z -> bool := fun t => negb (p t).

(** [reverse()]:
    [for (xs = this; !xs.isEmpty(); xs = xs.tail()) res = cons(xs.head(), res)] *)
Fixpoint reverse_loop (xs res : IntSeq) : IntSeq :=
  match xs with
  | [] => res
  | head :: tail => reverse_loop tail (head :: res)
  end.

Definition reverse (this : IntSeq) : IntSeq := reverse_loop this [].

(** [filter(predicate)] *)
Fixpoint filter (predicate : Z -> bool) (this : IntSeq) : IntSeq :=
  match this with
  | [] => []
  | head :: tail =>
      if predicate head then head :: filter predicate tail
      else filter predicate tail
  end.

(** [map(mapper)] *)
Fixpoint map (mapper : Z -> Z) (this : IntSeq) : IntSeq :=
  match this with
  | [] => []
  | head :: tail => mapper head :: map mapper tail
  end.

(** [foldLeft(identity, op)] *)
Fixpoint foldLeft (identity : Z) (op : Z -> Z -> Z) (this : IntSeq) : Z :=
  match this with
  | [] => identity
  | head :: tail => foldLeft (op identity head) op tail
  end.

(** [foldRight(identity, op)] *)
Definition foldRight (identity : Z) (op : Z -> Z -> Z) (this : IntSeq) : Z :=
  foldLeft identity (fun i j => op j i) (reverse this).

(** [takeWhile(predicate)], for a predicate without state. *)
Fixpoint takeWhile (predicate : Z -> bool) (this : IntSeq) : IntSeq :=
  match this with
  | [] => []
  | head :: tail =>
      if negb (predicate head) then [] else head :: takeWhile predicate tail
  end.

(** [takeUntil(predicate)] *)
Definition takeUntil (predicate : Z -> bool) (this : IntSeq) : IntSeq :=
  takeWhile (negate predicate) this.

(** [dropWhile(predicate)]: the loop calls [test] once for each element
    that it looks at, in order. *)
Fixpoint dropWhile {St : Type} (predicate : IntPredicate St) (st : St)
    (this : IntSeq) : IntSeq :=
  match this with
  | [] => []
  | head :: tail =>
      let '(answer, st) := predicate st head in
      if negb answer then this else dropWhile predicate st tail
  end.

(** [dropUntil(predicate)] *)
Definition dropUntil (predicate : Z -> bool) (this : IntSeq) : IntSeq :=
  dropWhile (stateless (negate predicate)) tt this.

(** The predicate of [drop(n)], an object with the field [int i]:
    [test(t)] is [return i++ < n]. *)
Definition counting (n : Z) : IntPredicate Z := fun i t => (i <? n, int (i + 1)).

(** [drop(n)] *)
Definition drop (n : Z) (this : IntSeq) : IntSeq := dropWhile (counting n) 0 this.

(** [count()]: the counter is a [long]. *)
Fixpoint count_loop (count : Z) (xs : IntSeq) : Z :=
  match xs with
  | [] => count
  | _ :: tail => count_loop (long (count + 1)) tail
  end.

Definition count (this : IntSeq) : Z := count_loop 0 this.

(** [anyMatch(predicate)] *)
Fixpoint anyMatch (predicate : Z -> bool) (this : IntSeq) : bool :=
  match this with
  | [] => false
  | head :: tail => if predicate head then true else anyMatch predicate tail
  end.

(** [allMatch(predicate)] *)
Fixpoint allMatch (predicate : Z -> bool) (this : IntSeq) : bool :=
  match this with
  | [] => true
  | head :: tail => if negb (predicate head) then false else allMatch predicate tail
  end.

(** [noneMatch(predicate)] *)
Fixpoint noneMatch (predicate : Z -> bool) (this : IntSeq) : bool :=
  match this with
  | [] => true
  | head :: tail => if predicate head then false else noneMatch predicate tail
  end.

(** [find(predicate)] *)
Fixpoint find (predicate : Z -> bool) (this : IntSeq) : option Z :=
  match this with
  | [] => None
  | val :: tail => if predicate val then Some val else find predicate tail
  end.

End IntSeq.

Module Scheme.

(** stdlib.scm, the procedures on exact integers and on hash tables.  The
    primitives that they call are those of the language: [remainder]
    truncates towards zero, so that its result has the sign of the
    dividend; [fold-left] calls its procedure with the accumulated value
    first; a procedure with a rest parameter gets its arguments as a
    list. *)
Definition remainder (n1 n2 : Z) : Z := Z.rem n1 n2.

(** [(define fold fold-left)] *)
Definition fold {A B : Type} (proc : A -> B -> A) (init : A) (l : list B) : A :=
  fold_left proc l init.

(** [(define (odd? n) (= (remainder n 2) 1))] *)
Definition odd (n : Z) : bool := remainder n 2 =? 1.

(** [(define (even? n) (= (remainder n 2) 0))] *)
Definition even (n : Z) : bool := remainder n 2 =? 0.

(** [(define (max first . rest) ...)] and [(define (min first . rest) ...)] *)
Definition max (first : Z) (rest : list Z) : Z :=
  fold (fun old new => if old >? new then old else new) first rest.

Definition min (first : Z) (rest : list Z) : Z :=
  fold (fun old new => if old <? new then old else new) first rest.

(** The inner procedure of [gcd],
    [(define (g a b) (if (zero? b) a (g b (remainder a b))))].  The absolute
    value of its second argument gets smaller with every call, so that
    [|b| + 1] calls are enough. *)
Fixpoint g_calls (calls : nat) (a b : Z) : Z :=
  match calls with
  | O => a
  | S calls => if b =? 0 then a else g_calls calls b (remainder a b)
  end.

Definition g (a b : Z) : Z := g_calls (S (Z.abs_nat b)) a b.

(** [(define (gcd . vals) ... (abs (fold g 0 vals)))] *)
Definition gcd (vals : list Z) : Z := Z.abs (fold g 0 vals).

(** An exact number: an integer, or a ratio in lowest terms with a
    denominator above 1. *)
Inductive number : Type :=
  | Integer (z : Z)
  | Ratio (numerator denominator : Z).

(** [(/ z1 z2)] on exact integers: an error for a divisor of 0. *)
Definition divide (z1 z2 : Z) : option number :=
  if z2 =? 0 then None
  else
    let d := Z.gcd z1 z2 * Z.sgn z2 in
    if z2 / d =? 1 then Some (Integer (z1 / d)) else Some (Ratio (z1 / d) (z2 / d)).

(** [(define (lcm . vals) (/ (abs (apply * vals)) (apply gcd vals)))] *)
Definition lcm (vals : list Z) : option number :=
  divide (Z.abs (fold_right Z.mul 1 vals)) (gcd vals).

(** *** SRFI-69 hash tables

    A hash table is a java.util.LinkedHashMap: its entries in the order in
    which their keys were first put.  A procedure that changes the table
    returns the table as it has become. *)
Section HashTables.

Context {K V : Type} `{EqDecision K}.

Definition hash_table : Type := list (K * V).

(** [(make-hash-table)] *)
Definition make_hash_table : hash_table := [].

(** [containsKey:] and [get:] *)
Fixpoint get (table : hash_table) (key : K) : option V :=
  match table with
  | [] => None
  | (k, v) :: rest => if decide (k = key) then Some v else get rest key
  end.

(** [put:] *)
Fixpoint put (table : hash_table) (key : K) (value : V) : hash_table :=
  match table with
  | [] => [(key, value)]
  | (k, v) :: rest =>
      if decide (k = key) then (k, value) :: rest else (k, v) :: put rest key value
  end.

(** [(hash-table-ref/default hash-table key default)] *)
Definition hash_table_ref_default (table : hash_table) (key : K) (default : V) : V :=
  match get table key with
  | Some value => value
  | None => default
  end.

(** [(hash-table-set! hash-table key value)] *)
Definition hash_table_set (table : hash_table) (key : K) (value : V) : hash_table :=
  put table key value.

(** [(hash-table-update! hash-table key function . maybe-default)]: with no
    value for the key and no default it is an error. *)
Definition hash_table_update (table : hash_table) (key : K) (function : V -> V)
    (maybe_default : option (unit -> V)) : option hash_table :=
  match get table key with
  | Some value => Some (put table key (function value))
  | None =>
      match maybe_default with
      | None => None
      | Some thunk => Some (put table key (function (thunk tt)))
      end
  end.

(** [(hash-table-update!/default hash-table key function default)] *)
Definition hash_table_update_default (table : hash_table) (key : K)
    (function : V -> V) (default : V) : option hash_table :=
  hash_table_update table key function (Some (fun _ => default)).

(** [(alist->hash-table alist)]: for every element,
    [(hash-table-update!/default hash-table (car elem) (lambda (x) x) (cdr elem))] *)
Definition alist_to_hash_table (alist : list (K * V)) : option hash_table :=
  fold_left
    (fun table elem =>
       match table with
       | Some table => hash_table_update_default table elem.1 (fun x => x) elem.2
       | None => None
       end)
    alist (Some make_hash_table).

(** [(hash-table-fold hash-table f acc)]: [hash-table-walk] visits the
    entries in their order. *)
Definition hash_table_fold {A : Type} (table : hash_table) (f : K -> V -> A -> A)
    (acc : A) : A :=
  fold_left (fun acc node => f node.1 node.2 acc) table acc.

(** [(hash-table->alist hash-table)] *)
Definition hash_table_to_alist (table : hash_table) : list (K * V) :=
  hash_table_fold table (fun key val acc => (key, val) :: acc) [].

(** [(hash-table-keys hash-table)] *)
Definition hash_table_keys (table : hash_table) : list K :=
  hash_table_fold table (fun key val acc => key :: acc) [].

(** [(hash-table-merge! hash-table1 hash-table2)] *)
Definition hash_table_merge (table1 table2 : hash_table) : hash_table :=
  fold_left (fun table node => hash_table_set table node.1 node.2)
    table2 table1.

(** [(assoc key alist)], for the statements: the first pair with the key. *)
Fixpoint assoc (key : K) (alist : list (K * V)) : option V :=
  match alist with
  | [] => None
  | (k, v) :: rest => if decide (k = key) then Some v else assoc key rest
  end.

End HashTables.

End Scheme.

Module Applications.

(** The handlers of the applications router, system.go.  An error of a
    handler is one of the broker, a formatted one, or one that a
    collaborator has returned. *)
Inductive failure : Type :=
  | ApplicationNotFoundError (name : string)
  | Errorf (message : string)
  | Failed (err : error).

(** What a handler has done when it returns: [http.Error] with status 400
    and the message, or the error returned. *)
Inductive Reply : Type :=
  | BadRequest (message : string)
  | Returned (err : option failure).

Definition is_key_char (c : ascii) : bool :=
  let n := nat_of_ascii c in
  ((97 <=? n) && (n <=? 122) || (65 <=? n) && (n <=? 90) || (n =? 95) ||
   (48 <=? n) && (n <=? 57))%nat.

(** [validEnvKey.MatchString(k)] for the pattern [^[a-zA-Z_0-9]+$]: one or
    more of these characters, and nothing else. *)
Definition validEnvKey (k : string) : bool :=
  match k with
  | EmptyString => false
  | _ => forallb is_key_char (String.list_ascii_of_string k)
  end.

Section Router.

(** The containers, and what the router calls of the broker and of a
    container: the containers found and the error of the search, and the
    error of [container.ExecE(ctx, user, nil, nil, args...)]. *)
Variable Container : Type.
Variable FindApplications : string -> string -> list Container * option error.
Variable FindService : string -> string -> string -> list Container * option error.
Variable ExecE : Container -> string -> list string -> option error.

(** [vars[key]]: the empty string for a key that is not there. *)
Definition var (vars : gmap string string) (key : string) : string :=
  default EmptyString (vars !! key).

(** [getContainers(ctx, namespace, vars)] *)
Definition getContainers (namespace : string) (vars : gmap string string)
  : list Container * option failure :=
  let name := var vars "name" in
  let service := var vars "service" in
  if String.eqb service EmptyString || String.eqb service "_" then
    let '(cs, err) := FindApplications name namespace in
    match err, cs with
    | None, [] => (cs, Some (ApplicationNotFoundError name))
    | _, _ => (cs, Failed <$> err)
    end
  else
    let '(cs, err) := FindService name namespace service in
    match err, cs with
    | None, [] =>
        (cs, Some (Errorf ("Service '" +:+ service +:+
                           "' not found in application '" +:+ name +:+ "'")))
    | _, _ => (cs, Failed <$> err)
    end.

(** [getContainer(ctx, namespace, vars)].  [None]: the index expression
    [cs[0]] panics. *)
Definition getContainer (namespace : string) (vars : gmap string string)
  : option (option Container * option failure) :=
  let '(cs, err) := getContainers namespace vars in
  match err with
  | None =>
      match cs with
      | c :: _ => Some (Some c, None)
      | [] => None
      end
  | Some err => Some (None, Some err)
  end.

(** The loop of [setenv] over the variables to export: the arguments, or
    the key that is not valid. *)
Fixpoint export_args (args : list string) (env : list (string * string))
  : string + list string :=
  match env with
  | [] => inr args
  | (k, v) :: env =>
      if negb (validEnvKey k) then inl k
      else export_args (args ++ [k +:+ "=" +:+ v]) env
  end.

(** The loop of [setenv] over the containers: the error returned, and the
    containers on which the command has been run, in order. *)
Fixpoint exec_all (cs : list Container) (args : list string)
  : option error * list Container :=
  match cs with
  | [] => (None, [])
  | container :: cs =>
      match ExecE container "root" args with
      | Some err => (Some err, [container])
      | None => let '(err, ran) := exec_all cs args in (err, container :: ran)
      end
  end.

(** [setenv(w, r, vars)] once the form and the JSON body of the request
    are parsed: [rm] tells whether the form has the key remove, [env] holds
    the variables of the body in the order in which the loops over the map
    visit them, and [namespace] is the one of the user.  The result is what
    the handler has done, the arguments of the command, and the containers
    on which it has been run. *)
Definition setenv (rm : bool) (env : list (string * string)) (namespace : string)
    (vars : gmap string string) : Reply * list string * list Container :=
  let '(cs, err) := getContainers namespace vars in
  match err with
  | Some err => (Returned (Some err), [], [])
  | None =>
      let args := ["/usr/bin/cwctl"; "setenv"] in
      let checked :=
        if rm then inr ((args ++ ["-d"]) ++ map fst env)
        else export_args (args ++ ["--export"]) env in
      match checked with
      | inl k => (BadRequest (k +:+ ": Invalid environment variable key"), [], [])
      | inr args =>
          let '(err, ran) := exec_all cs args in
          (Returned (Failed <$> err), args, ran)
      end
  end.

End Router.

End Applications.

(** * Properties *)

(** ** Bytes and fixed-width integers *)

Lemma Z_of_byte_range (b : byte) : 0 <= Z_of_byte b < 256.
Proof.
  unfold Z_of_byte. pose proof (Byte.to_N_bounded b) as Hb.
  apply N.lt_succ_r in Hb. lia.
Qed.

Lemma Z_of_byte_of_Z (x : Z) : Z_of_byte (byte_of_Z x) = x mod 256.
Proof.
  unfold Z_of_byte, byte_of_Z.
  pose proof (Z.mod_pos_bound x 256 ltac:(lia)) as Hx.
  destruct (Byte.of_N (Z.to_N (x mod 256))) as [b|] eqn:Hof.
  - apply Byte.to_of_N in Hof. rewrite Hof. lia.
  - pose proof (Byte.to_of_N_option_map (Z.to_N (x mod 256))) as Hm.
    rewrite Hof in Hm. simpl in Hm.
    destruct (N.leb_spec (Z.to_N (x mod 256)) 255); [discriminate | lia].
Qed.

Lemma int64_idem (a b : Z) : int64 (int64 a + b) = int64 (a + b).
Proof.
  unfold int64. f_equal.
  replace ((a + 2 ^ 63) mod 2 ^ 64 - 2 ^ 63 + b + 2 ^ 63)
    with ((a + 2 ^ 63) mod 2 ^ 64 + b) by lia.
  rewrite Zplus_mod_idemp_l. f_equal. lia.
Qed.

Lemma int64_int64 (x : Z) : int64 (int64 x) = int64 x.
Proof.
  pose proof (int64_idem x 0) as H. now rewrite !Z.add_0_r in H.
Qed.

Lemma int64_small (x : Z) : - 2 ^ 63 <= x < 2 ^ 63 -> int64 x = x.
Proof. intros Hx. unfold int64. rewrite Z.mod_small; lia. Qed.

(** A shifted value and a smaller one have no bit in common. *)
Lemma lor_shiftl_add (hi lo n : Z) :
  0 <= n -> 0 <= lo < 2 ^ n -> Z.lor lo (Z.shiftl hi n) = lo + hi * 2 ^ n.
Proof.
  intros Hn Hlo.
  assert (Hland : Z.land lo (Z.shiftl hi n) = 0).
  { apply Z.bits_inj'. intros i Hi. rewrite Z.land_spec, Z.bits_0.
    destruct (Z.lt_ge_cases i n) as [Hlt | Hge].
    - rewrite (Z.shiftl_spec_low hi n i Hlt). apply andb_false_r.
    - destruct (Z.eq_dec lo 0) as [-> | Hne].
      + now rewrite Z.bits_0.
      + rewrite (Z.bits_above_log2 lo i); [done | lia |].
        apply Z.log2_lt_pow2; [lia |].
        apply Z.lt_le_trans with (2 ^ n); [lia |].
        apply Z.pow_le_mono_r; lia. }
  rewrite <- Z.lxor_lor by exact Hland.
  rewrite <- Z.add_nocarry_lxor by exact Hland.
  now rewrite Z.shiftl_mul_pow2.
Qed.

Module StdcopyProofs.
Import Stdcopy.

Lemma Uint32_bytes (b0 b1 b2 b3 : byte) :
  Uint32 [b0; b1; b2; b3] =
  Z_of_byte b3 + Z_of_byte b2 * 2 ^ 8 + Z_of_byte b1 * 2 ^ 16 + Z_of_byte b0 * 2 ^ 24.
Proof.
  unfold Uint32. cbn [nth].
  pose proof (Z_of_byte_range b0). pose proof (Z_of_byte_range b1).
  pose proof (Z_of_byte_range b2). pose proof (Z_of_byte_range b3).
  rewrite (lor_shiftl_add (Z_of_byte b2) (Z_of_byte b3) 8) by lia.
  rewrite (lor_shiftl_add (Z_of_byte b1) _ 16) by lia.
  rewrite (lor_shiftl_add (Z_of_byte b0) _ 24) by lia.
  reflexivity.
Qed.

Lemma Uint32_PutUint32 (v : Z) : 0 <= v < 2 ^ 32 -> Uint32 (PutUint32 v) = v.
Proof.
  intros Hv. unfold PutUint32. rewrite Uint32_bytes, !Z_of_byte_of_Z.
  rewrite !Z.shiftr_div_pow2 by lia.
  change 256 with (2 ^ 8).
  assert (v / 2 ^ 24 < 2 ^ 8) by (apply Z.div_lt_upper_bound; lia).
  assert (0 <= v / 2 ^ 24) by (apply Z.div_pos; lia).
  rewrite (Z.mod_small (v / 2 ^ 24)) by lia.
  pose proof (Z.div_mod v (2 ^ 8) ltac:(lia)).
  pose proof (Z.div_mod (v / 2 ^ 8) (2 ^ 8) ltac:(lia)).
  pose proof (Z.div_mod (v / 2 ^ 16) (2 ^ 8) ltac:(lia)).
  replace (v / 2 ^ 16) with (v / 2 ^ 8 / 2 ^ 8) in *
    by (rewrite Z.div_div by lia; reflexivity).
  replace (v / 2 ^ 24) with (v / 2 ^ 8 / 2 ^ 8 / 2 ^ 8) in *
    by (rewrite !Z.div_div by lia; reflexivity).
  lia.
Qed.

Lemma big_endian_bytes (b0 b1 b2 b3 : byte) :
  big_endian [b0; b1; b2; b3] = Uint32 [b0; b1; b2; b3].
Proof. rewrite Uint32_bytes. unfold big_endian. cbn [fold_left]. lia. Qed.

(** *** The reading loop over a [ChunkReader] *)

Lemma fill_done {R : Type} `{Reader R} fuel (src : R) buf (nr need : nat) :
  (need <= nr)%nat -> fill fuel src buf nr need = Filled src buf nr.
Proof.
  intros Hle. destruct fuel; simpl;
    destruct (Nat.leb_spec need nr); try lia; reflexivity.
Qed.

Lemma fill_step {R : Type} `{Reader R} fuel (src : R) buf (nr need : nat) :
  (nr < need)%nat ->
  fill (S fuel) src buf nr need =
  let '((bs, er), src) := Read src (length buf - nr)%nat in
  let buf := firstn nr buf ++ bs ++ skipn (nr + length bs) buf in
  let nr := (nr + length bs)%nat in
  match er with
  | Some io_EOF =>
      if (nr <? need)%nat then EndOfInput src buf nr else Filled src buf nr
  | Some er => ReadFailed src er
  | None => fill fuel src buf nr need
  end.
Proof.
  intros Hlt. simpl. destruct (Nat.leb_spec need nr); [lia | reflexivity].
Qed.

Lemma Read_end (e : bool) (n : nat) :
  Read {| chunks := []; eof_with_data := e |} n =
  (([], Some io_EOF), {| chunks := []; eof_with_data := e |}).
Proof. reflexivity. Qed.

Lemma Read_piece (e : bool) (c : list byte) (rest : list (list byte)) (n : nat) :
  Read {| chunks := c :: rest; eof_with_data := e |} n =
  if (length c <=? n)%nat then
    ((c, match rest with
         | [] => if e then Some io_EOF else None
         | _ :: _ => None
         end),
     {| chunks := rest; eof_with_data := e |})
  else
    ((firstn n c, None), {| chunks := skipn n c :: rest; eof_with_data := e |}).
Proof. reflexivity. Qed.

(** Storing [bs] behind the [d] already in the buffer. *)
Lemma store_behind (d junk bs : list byte) :
  firstn (length d) (d ++ junk) ++ bs ++
    skipn (length d + length bs) (d ++ junk) =
  (d ++ bs) ++ skipn (length bs) junk.
Proof.
  rewrite take_app_length, drop_app_add. now rewrite <- app_assoc.
Qed.

(** What a reading loop has done when it ends: with [d] buffered and the
    pieces [cs] still to come, either [need] bytes are buffered and nothing
    of the stream is lost, or the stream is shorter than [need] and the
    loop has met the end of the input. *)
Lemma fill_chunks (e : bool) (need : nat) (cs : list (list byte)) :
  forall (d junk : list byte) (fuel : nat),
    (need <= length (d ++ junk))%nat ->
    (length cs < fuel)%nat ->
    ((need <= length (d ++ concat cs))%nat ->
     exists d' junk' cs',
       fill fuel {| chunks := cs; eof_with_data := e |}
            (d ++ junk) (length d) need =
         Filled {| chunks := cs'; eof_with_data := e |}
                (d' ++ junk') (length d') /\
       d' ++ concat cs' = d ++ concat cs /\
       (need <= length d')%nat /\
       length (d' ++ junk') = length (d ++ junk) /\
       (length cs' <= length cs)%nat) /\
    ((length (d ++ concat cs) < need)%nat ->
     exists buf' nr',
       fill fuel {| chunks := cs; eof_with_data := e |}
            (d ++ junk) (length d) need =
         EndOfInput {| chunks := []; eof_with_data := e |} buf' nr').
Proof.
  induction cs as [| c rest IH]; intros d junk fuel Hcap Hfuel.
  - (* nothing left to read *)
    simpl concat. rewrite app_nil_r. split.
    + intros Hneed. exists d, junk, []. rewrite fill_done by exact Hneed.
      rewrite app_nil_r. repeat split; auto.
    + intros Hshort. destruct fuel as [| fuel]; [simpl in Hfuel; lia |].
      rewrite fill_step by exact Hshort.
      rewrite Read_end. cbn [length]. rewrite Nat.add_0_r.
      destruct (Nat.ltb_spec (length d) need); [| lia]. eauto.
  - destruct (Nat.le_gt_cases need (length d)) as [Hhave | Hmore].
    { (* enough is buffered already *)
      split; [| rewrite length_app; lia].
      intros _. exists d, junk, (c :: rest). rewrite fill_done by exact Hhave.
      repeat split; auto. }
    destruct fuel as [| fuel]; [lia |]. simpl in Hfuel.
    rewrite fill_step by exact Hmore.
    rewrite Read_piece.
    assert (Hjunk : (length (d ++ junk) - length d = length junk)%nat)
      by (rewrite length_app; lia).
    rewrite Hjunk.
    destruct (Nat.leb_spec (length c) (length junk)) as [Hfits | Hbig].
    + (* the whole piece fits *)
      cbn zeta. rewrite store_behind, <- length_app.
      assert (Hcap' : (need <= length ((d ++ c) ++ skipn (length c) junk))%nat).
      { rewrite !length_app, length_drop. rewrite length_app in Hcap. lia. }
      assert (Hsame : length ((d ++ c) ++ skipn (length c) junk)
                      = length (d ++ junk)).
      { rewrite !length_app, length_drop. lia. }
      assert (Hcat : (d ++ c) ++ concat rest = d ++ concat (c :: rest))
        by (simpl; now rewrite app_assoc).
      destruct (IH (d ++ c) (skipn (length c) junk) fuel Hcap' ltac:(lia))
        as [IHfull IHshort].
      rewrite <- Hcat.
      destruct rest as [| c' rest'].
      * destruct e.
        -- (* the last bytes arrive together with io.EOF *)
           simpl concat. rewrite !app_nil_r.
           split; intros Hlen.
           ++ destruct (Nat.ltb_spec (length (d ++ c)) need); [lia |].
              exists (d ++ c), (skipn (length c) junk), [].
              simpl concat. rewrite app_nil_r. repeat split; auto. simpl. lia.
           ++ destruct (Nat.ltb_spec (length (d ++ c)) need); [| lia]. eauto.
        -- split; intros Hlen.
           ++ destruct (IHfull Hlen) as (d' & junk' & cs' & Hf & Hd & Hn & Hl & Hc).
              exists d', junk', cs'. rewrite Hf, Hl, Hsame.
              repeat split; auto. simpl in *. lia.
           ++ apply IHshort, Hlen.
      * split; intros Hlen.
        -- destruct (IHfull Hlen) as (d' & junk' & cs' & Hf & Hd & Hn & Hl & Hc).
           exists d', junk', cs'. rewrite Hf, Hl, Hsame.
           repeat split; auto. simpl in *. lia.
        -- apply IHshort, Hlen.
    + (* the piece is cut to what fits, and then the buffer is full *)
      cbn zeta.
      assert (Hcut : length (firstn (length junk) c) = length junk)
        by (rewrite length_take; lia).
      rewrite store_behind, <- length_app, Hcut, drop_all.
      assert (Hfull : length (d ++ firstn (length junk) c) = length (d ++ junk))
        by (rewrite !length_app, Hcut; reflexivity).
      rewrite fill_done by (rewrite Hfull; exact Hcap).
      split.
      * intros _.
        exists (d ++ firstn (length junk) c), [], (skipn (length junk) c :: rest).
        rewrite !app_nil_r. repeat split; auto.
        -- simpl. rewrite <- !app_assoc. f_equal.
           now rewrite (app_assoc (firstn _ c)), take_drop.
        -- rewrite Hfull. exact Hcap.
      * intros Hshort. exfalso.
        simpl in Hshort. rewrite !length_app in Hshort.
        rewrite length_app in Hcap. lia.
Qed.

(** *** Headers in the buffer *)

Lemma prefix_split {A : Type} (a : list A) :
  forall d r b : list A,
    d ++ r = a ++ b -> (length a <= length d)%nat ->
    exists d', d = a ++ d' /\ d' ++ r = b.
Proof.
  induction a as [| x a IH]; intros d r b Heq Hlen.
  - exists d. split; [reflexivity | exact Heq].
  - destruct d as [| y d]; [simpl in Hlen; lia |].
    simpl in Heq, Hlen. injection Heq as -> Heq.
    destruct (IH d r b Heq ltac:(lia)) as (d' & -> & Hd').
    exists d'. split; [reflexivity | exact Hd'].
Qed.

Lemma length_header (p : byte) (n : Z) : length (header p n) = 8%nat.
Proof. reflexivity. Qed.

Lemma nth_header (p : byte) (n : Z) (x y : list byte) :
  nth stdWriterFdIndex ((header p n ++ x) ++ y) x00 = p.
Proof. reflexivity. Qed.

Lemma size_header (p : byte) (n : Z) (x y : list byte) :
  0 <= n < 2 ^ 32 ->
  Uint32 (firstn 4 (skipn stdWriterSizeIndex ((header p n ++ x) ++ y))) = n.
Proof.
  intros Hn. unfold header, stdWriterSizeIndex.
  change (Uint32 (PutUint32 (uint32 n)) = n).
  unfold uint32. rewrite Z.mod_small by exact Hn.
  apply Uint32_PutUint32, Hn.
Qed.

Lemma select_StdType (t : StdType) : select (StdType_byte t) = Some (sink_of t).
Proof. destruct t; reflexivity. Qed.

(** The buffer after the check of its size. *)
Lemma extended (buf : list byte) (frameSize : nat) :
  exists zeros,
    (if (length buf <? frameSize + stdWriterPrefixLen)%nat then
       (buf ++ repeat x00 (frameSize + stdWriterPrefixLen - length buf + 1)%nat,
        length (buf ++ repeat x00
                  (frameSize + stdWriterPrefixLen - length buf + 1)%nat))
     else (buf, length buf)) = (buf ++ zeros, length (buf ++ zeros)) /\
    (frameSize + stdWriterPrefixLen <= length (buf ++ zeros))%nat.
Proof.
  destruct (Nat.ltb_spec (length buf) (frameSize + stdWriterPrefixLen)).
  - eexists. split; [reflexivity |].
    rewrite length_app, repeat_length. lia.
  - exists []. rewrite app_nil_r. split; [reflexivity | lia].
Qed.

(** *** One turn of the outer loop on a complete frame *)

Lemma Copy_loop_frame (f : Frame) (rest : list byte) (e : bool)
    (cs : list (list byte)) (d junk : list byte) (s : Sinks Buffer)
    (written : Z) (fuel : nat) :
  fits f ->
  d ++ concat cs = encode f ++ rest ->
  (stdWriterPrefixLen <= length (d ++ junk))%nat ->
  (length cs < fuel)%nat ->
  exists d' junk' cs',
    Copy_loop (S fuel) s {| chunks := cs; eof_with_data := e |}
      (d ++ junk) (length (d ++ junk)) (length d) written =
    Copy_loop fuel (deliver s f) {| chunks := cs'; eof_with_data := e |}
      (d' ++ junk') (length (d' ++ junk')) (length d')
      (int64 (written + Z.of_nat (length (f_payload f)))) /\
    d' ++ concat cs' = rest /\
    (stdWriterPrefixLen <= length (d' ++ junk'))%nat /\
    (length cs' <= length cs)%nat.
Proof.
  destruct f as [t p]. unfold fits, encode, deliver. cbn [f_type f_payload].
  intros Hfits Hstream Hcap Hfuel.
  set (hd := header (StdType_byte t) (Z.of_nat (length p))) in *.
  assert (Hhd : length hd = 8%nat) by reflexivity.
  assert (Htotal : length (d ++ concat cs) = (8 + length p + length rest)%nat).
  { rewrite Hstream, !length_app, Hhd. lia. }
  (* the header *)
  destruct (fill_chunks e stdWriterPrefixLen cs d junk fuel Hcap Hfuel)
    as [Hfull _].
  destruct Hfull as (d1 & junk1 & cs1 & Hf1 & Hd1 & Hn1 & Hl1 & Hc1);
    [unfold stdWriterPrefixLen; lia |].
  cbn [Copy_loop]. rewrite Hf1.
  rewrite Hstream, <- app_assoc in Hd1.
  destruct (prefix_split hd d1 (concat cs1) (p ++ rest) Hd1) as (d1' & -> & Hd1');
    [rewrite Hhd; exact Hn1 |].
  subst hd. rewrite nth_header, select_StdType.
  rewrite size_header by lia. rewrite Nat2Z.id.
  set (hd := header (StdType_byte t) (Z.of_nat (length p))) in *.
  (* the size of the buffer *)
  rewrite <- Hl1.
  destruct (extended ((hd ++ d1') ++ junk1) (length p)) as (zeros & -> & Hcap2).
  rewrite <- app_assoc in Hcap2 |- *.
  (* the payload *)
  destruct (fill_chunks e (length p + stdWriterPrefixLen) cs1 (hd ++ d1')
              (junk1 ++ zeros) fuel Hcap2 ltac:(lia)) as [Hfull _].
  destruct Hfull as (d2 & junk2 & cs2 & Hf2 & Hd2 & Hn2 & Hl2 & Hc2).
  { rewrite <- app_assoc, Hd1', !length_app, Hhd.
    unfold stdWriterPrefixLen. lia. }
  rewrite Hf2.
  rewrite <- (app_assoc hd d1'), Hd1', app_assoc in Hd2.
  destruct (prefix_split (hd ++ p) d2 (concat cs2) rest Hd2) as (d2' & -> & Hd2');
    [rewrite length_app, Hhd; unfold stdWriterPrefixLen in Hn2; lia |].
  assert (Hpay : firstn (length p)
            (skipn stdWriterPrefixLen (((hd ++ p) ++ d2') ++ junk2)) = p).
  { rewrite <- !app_assoc. unfold stdWriterPrefixLen.
    rewrite (drop_app_length' hd) by (symmetry; exact Hhd).
    apply take_app_length. }
  assert (Hmove :
    skipn (length p + stdWriterPrefixLen) (((hd ++ p) ++ d2') ++ junk2) ++
    skipn (length (((hd ++ p) ++ d2') ++ junk2) - (length p + stdWriterPrefixLen))
          (((hd ++ p) ++ d2') ++ junk2) =
    d2' ++ (junk2 ++
      skipn (length (((hd ++ p) ++ d2') ++ junk2) - (length p + stdWriterPrefixLen))
            (((hd ++ p) ++ d2') ++ junk2))).
  { rewrite <- (app_assoc (hd ++ p) d2' junk2) at 1.
    rewrite (drop_app_length' (hd ++ p))
      by (rewrite length_app, Hhd; unfold stdWriterPrefixLen; lia).
    now rewrite <- app_assoc. }
  assert (Hnr : (length ((hd ++ p) ++ d2') - (length p + stdWriterPrefixLen)
                 = length d2')%nat).
  { rewrite !length_app, Hhd. unfold stdWriterPrefixLen. lia. }
  set (junk3 := junk2 ++ skipn _ _) in Hmove.
  assert (Hlen3 : length (d2' ++ junk3) = length (((hd ++ p) ++ d2') ++ junk2)).
  { rewrite <- Hmove, length_app, !length_drop.
    assert (length p + stdWriterPrefixLen
            <= length (((hd ++ p) ++ d2') ++ junk2))%nat
      by (rewrite !length_app, Hhd; unfold stdWriterPrefixLen; lia).
    lia. }
  exists d2', junk3, cs2.
  split; [| split; [exact Hd2' | split; [| lia]]].
  - rewrite Hpay, Hmove, Hnr, <- Hl2, <- Hlen3.
    destruct (get_sink s (sink_of t)) as [b |]; [| reflexivity].
    unfold Write, Buffer_Writer. cbn beta iota.
    rewrite Z.eqb_refl. reflexivity.
  - rewrite Hlen3, Hl2. unfold stdWriterPrefixLen in *. lia.
Qed.

(** *** The last turn, on a stream that stops inside a frame *)

Lemma Copy_loop_truncated (tail : list byte) (e : bool)
    (cs : list (list byte)) (d junk : list byte) (s : Sinks Buffer)
    (written : Z) (fuel : nat) :
  truncated tail ->
  d ++ concat cs = tail ->
  (stdWriterPrefixLen <= length (d ++ junk))%nat ->
  (length cs < fuel)%nat ->
  Copy_loop (S fuel) s {| chunks := cs; eof_with_data := e |}
    (d ++ junk) (length (d ++ junk)) (length d) written =
  Some {| c_written := written; c_err := None; c_sinks := s;
          c_src := {| chunks := []; eof_with_data := e |} |}.
Proof.
  intros Htail Hstream Hcap Hfuel.
  destruct (fill_chunks e stdWriterPrefixLen cs d junk fuel Hcap Hfuel)
    as [Hfull Hshort].
  cbn [Copy_loop].
  destruct Htail as [bs Hbs | t n bs Hn Hbs].
  - (* the input ends before a full header *)
    destruct Hshort as (buf' & nr' & ->); [rewrite Hstream; exact Hbs |].
    reflexivity.
  - (* the input ends before the declared size *)
    set (hd := header (StdType_byte t) n) in *.
    assert (Hhd : length hd = 8%nat) by reflexivity.
    destruct Hfull as (d1 & junk1 & cs1 & Hf1 & Hd1 & Hn1 & Hl1 & Hc1).
    { rewrite Hstream, length_app, Hhd. unfold stdWriterPrefixLen. lia. }
    rewrite Hf1. rewrite Hstream in Hd1.
    destruct (prefix_split hd d1 (concat cs1) bs Hd1) as (d1' & -> & Hd1');
      [rewrite Hhd; exact Hn1 |].
    subst hd. rewrite nth_header, select_StdType.
    rewrite size_header by exact Hn.
    set (hd := header (StdType_byte t) n) in *.
    rewrite <- Hl1.
    destruct (extended ((hd ++ d1') ++ junk1) (Z.to_nat n)) as (zeros & -> & Hcap2).
    rewrite <- app_assoc in Hcap2 |- *.
    destruct (fill_chunks e (Z.to_nat n + stdWriterPrefixLen) cs1 (hd ++ d1')
                (junk1 ++ zeros) fuel Hcap2 ltac:(lia)) as [_ Hshort2].
    destruct Hshort2 as (buf' & nr' & ->); [| reflexivity].
    rewrite <- app_assoc, Hd1', length_app, Hhd.
    unfold stdWriterPrefixLen. lia.
Qed.

(** *** The whole loop *)

Lemma count_total (fs : list Frame) :
  forall w, int64 w = w -> count w fs = int64 (w + payload_bytes fs).
Proof.
  induction fs as [| f fs IH]; intros w Hw; simpl.
  - now rewrite Z.add_0_r.
  - unfold count in *. rewrite IH.
    + rewrite int64_idem. f_equal. lia.
    + apply int64_int64.
Qed.

Lemma Copy_loop_frames (tail : list byte) (e : bool) (fs : list Frame) :
  forall (cs : list (list byte)) (d junk : list byte) (s : Sinks Buffer)
         (written : Z) (fuel : nat),
    Forall fits fs ->
    truncated tail ->
    d ++ concat cs = concat (map encode fs) ++ tail ->
    (stdWriterPrefixLen <= length (d ++ junk))%nat ->
    (length cs + length fs + 1 < fuel)%nat ->
    Copy_loop fuel s {| chunks := cs; eof_with_data := e |}
      (d ++ junk) (length (d ++ junk)) (length d) written =
    Some {| c_written := count written fs; c_err := None;
            c_sinks := fold_left deliver fs s;
            c_src := {| chunks := []; eof_with_data := e |} |}.
Proof.
  induction fs as [| f fs IH];
    intros cs d junk s written fuel Hfits Htail Hstream Hcap Hfuel;
    (destruct fuel as [| fuel]; [lia |]); simpl in Hfuel.
  - apply Copy_loop_truncated with (tail := tail); auto. lia.
  - inversion Hfits as [| ? ? Hf Hfs]; subst.
    simpl in Hstream. rewrite <- app_assoc in Hstream.
    destruct (Copy_loop_frame f _ e cs d junk s written fuel Hf Hstream Hcap
                ltac:(lia)) as (d' & junk' & cs' & -> & Hrest & Hcap' & Hcs').
    apply IH; auto. lia.
Qed.

(** [Copy], with the count as the loop accumulates it. *)
Lemma Copy_frames_count (fs : list Frame) (tail : list byte)
    (cs : list (list byte)) (e : bool) (s : Sinks Buffer) (fuel : nat) :
  Forall fits fs ->
  truncated tail ->
  concat cs = concat (map encode fs) ++ tail ->
  (length cs + length fs + 1 < fuel)%nat ->
  Copy fuel s {| chunks := cs; eof_with_data := e |} =
  Some {| c_written := count 0 fs; c_err := None;
          c_sinks := fold_left deliver fs s;
          c_src := {| chunks := []; eof_with_data := e |} |}.
Proof.
  intros Hfits Htail Hstream Hfuel.
  pose proof (Copy_loop_frames tail e fs cs [] (repeat x00 startingBufLen)
                s 0 fuel Hfits Htail Hstream) as Hloop.
  rewrite app_nil_l, repeat_length in Hloop. cbn [length] in Hloop.
  unfold Copy. apply Hloop; [| exact Hfuel].
  unfold stdWriterPrefixLen, startingBufLen. lia.
Qed.

Lemma Copy_frames (fs : list Frame) (tail : list byte)
    (cs : list (list byte)) (e : bool) (s : Sinks Buffer) (fuel : nat) :
  Forall fits fs ->
  truncated tail ->
  concat cs = concat (map encode fs) ++ tail ->
  (length cs + length fs + 1 < fuel)%nat ->
  Copy fuel s {| chunks := cs; eof_with_data := e |} =
  Some {| c_written := int64 (payload_bytes fs); c_err := None;
          c_sinks := fold_left deliver fs s;
          c_src := {| chunks := []; eof_with_data := e |} |}.
Proof.
  intros Hfits Htail Hstream Hfuel.
  rewrite (Copy_frames_count fs tail) by assumption.
  now rewrite count_total.
Qed.

(** *** The decoder at work *)

(** Two frames, cut into pieces at odd places. *)
Example Copy_two_frames :
  Copy 6 empty_sinks
    {| chunks := [[x02; x00; x00]; [x00; x00; x00; x00; x02; x68];
                  [x69; x01; x00; x00; x00; x00; x00; x00; x01; x21]];
       eof_with_data := true |} =
  Some {| c_written := 3; c_err := None;
          c_sinks := {| dstout := Some [x21]; dsterr := Some [x68; x69];
                        data := Some ([] : Buffer) |};
          c_src := {| chunks := []; eof_with_data := true |} |}.
Proof. vm_compute. reflexivity. Qed.

(** A stream type that is not known ends the decoding with an error, and
    the count returned is 0 whatever was written before. *)
Example Copy_unrecognized_header :
  Copy 6 empty_sinks
    {| chunks := [[x01; x00; x00; x00; x00; x00; x00; x01; x21;
                   x09; x00; x00; x00; x00; x00; x00; x00]];
       eof_with_data := false |} =
  Some {| c_written := 0; c_err := Some (Errorf_UnrecognizedInputHeader x09);
          c_sinks := {| dstout := Some [x21]; dsterr := Some ([] : Buffer);
                        data := Some ([] : Buffer) |};
          c_src := {| chunks := []; eof_with_data := false |} |}.
Proof. vm_compute. reflexivity. Qed.

(** A payload one byte longer than the buffer that [Copy] starts with:
    the buffer is extended, and the payload arrives whole. *)
Example Copy_beyond_the_buffer :
  let p := repeat x07 (startingBufLen + 1) in
  Copy 4 empty_sinks
    {| chunks := [encode {| f_type := Data; f_payload := p |}];
       eof_with_data := false |} =
  Some {| c_written := Z.of_nat startingBufLen + 1; c_err := None;
          c_sinks := {| dstout := Some []; dsterr := Some []; data := Some p |};
          c_src := {| chunks := []; eof_with_data := false |} |}.
Proof.
  intros p.
  assert (Hlen : Z.of_nat (length p) = Z.of_nat startingBufLen + 1)
    by (unfold p; rewrite repeat_length; lia).
  clearbody p.
  rewrite (Copy_frames [{| f_type := Data; f_payload := p |}] []).
  - cbn [payload_bytes fold_right f_payload fold_left]. rewrite Hlen, Z.add_0_r.
    rewrite int64_small by (unfold startingBufLen, stdWriterPrefixLen; lia).
    reflexivity.
  - repeat constructor. unfold fits. cbn [f_payload]. rewrite Hlen.
    unfold startingBufLen, stdWriterPrefixLen. lia.
  - apply truncated_header. unfold stdWriterPrefixLen. simpl. lia.
  - simpl. now rewrite !app_nil_r.
  - simpl. lia.
Qed.

Lemma encode_layout (t : StdType) (p : list byte) :
  Z.of_nat (length p) < 2 ^ 32 ->
  exists size : list byte,
    length size = 4%nat /\
    big_endian size = Z.of_nat (length p) /\
    encode {| f_type := t; f_payload := p |} =
      [StdType_byte t; x00; x00; x00] ++ size ++ p.
Proof.
  intros Hlen. exists (PutUint32 (uint32 (Z.of_nat (length p)))).
  split; [reflexivity | split; [| reflexivity]].
  unfold PutUint32 at 1. rewrite big_endian_bytes.
  change (Uint32 (PutUint32 (uint32 (Z.of_nat (length p)))) = Z.of_nat (length p)).
  unfold uint32. rewrite Z.mod_small by lia. apply Uint32_PutUint32. lia.
Qed.

Lemma Write_Buffer (t : StdType) (p : list byte) (b : Buffer) :
  stdWriter_Write (NewWriter (Some b) t) (Some p) =
  ((Z.of_nat (length p), None),
   Some {| sw_Writer := Some (b ++ encode {| f_type := t; f_payload := p |});
           prefix := StdType_byte t |}).
Proof.
  unfold stdWriter_Write, NewWriter, encode. cbn [sw_Writer prefix f_type f_payload].
  unfold Write, Flusher, Buffer_Writer. cbn beta iota.
  rewrite length_app, length_header.
  replace (Z.of_nat (8 + length p) - Z.of_nat stdWriterPrefixLen)
    with (Z.of_nat (length p)) by (unfold stdWriterPrefixLen; lia).
  destruct (Z.ltb_spec (Z.of_nat (length p)) 0); [lia | reflexivity].
Qed.

Lemma Write_Recorder (t : StdType) (p : list byte) (r : Recorder) :
  stdWriter_Write (NewWriter (Some r) t) (Some p) =
  ((Z.of_nat (length p), None),
   Some {| sw_Writer := Some (r ++ [encode {| f_type := t; f_payload := p |}]);
           prefix := StdType_byte t |}).
Proof.
  unfold stdWriter_Write, NewWriter, encode. cbn [sw_Writer prefix f_type f_payload].
  unfold Write, Flusher, Recorder_Writer. cbn beta iota.
  rewrite length_app, length_header.
  replace (Z.of_nat (8 + length p) - Z.of_nat stdWriterPrefixLen)
    with (Z.of_nat (length p)) by (unfold stdWriterPrefixLen; lia).
  destruct (Z.ltb_spec (Z.of_nat (length p)) 0); [lia | reflexivity].
Qed.

(** C3 (as amended).  For every stream type [t] and every payload [p]
    shorter than 2^32 bytes: writing [p] through [NewWriter(w, t)] hands
    the underlying writer, in one write, exactly one frame, made of the tag
    of [t], three zero bytes, four bytes that are [len(p)] in big endian,
    and [p]; the call returns [len(p), nil].  Decoding that stream with
    [Copy], however the source cuts it into pieces and whenever it reports
    the end of the input, returns [len(p), nil] and appends exactly [p] to
    the sink of [t] (stdout for Stdin and Stdout, stderr for Stderr, data
    for Data) and nothing to the others. *)
Theorem write_then_copy_roundtrip (t : StdType) (p : list byte) :
  Z.of_nat (length p) < 2 ^ 32 ->
  (forall r : Recorder,
     stdWriter_Write (NewWriter (Some r) t) (Some p) =
     ((Z.of_nat (length p), None),
      Some {| sw_Writer := Some (r ++ [encode {| f_type := t; f_payload := p |}]);
              prefix := StdType_byte t |})) /\
  (forall b : Buffer,
     stdWriter_Write (NewWriter (Some b) t) (Some p) =
     ((Z.of_nat (length p), None),
      Some {| sw_Writer := Some (b ++ encode {| f_type := t; f_payload := p |});
              prefix := StdType_byte t |})) /\
  (exists size : list byte,
     length size = 4%nat /\
     big_endian size = Z.of_nat (length p) /\
     encode {| f_type := t; f_payload := p |} =
       [StdType_byte t; x00; x00; x00] ++ size ++ p) /\
  (forall (cs : list (list byte)) (e : bool) (s : Sinks Buffer) (b : Buffer)
          (fuel : nat),
     concat cs = encode {| f_type := t; f_payload := p |} ->
     get_sink s (sink_of t) = Some b ->
     (length cs + 2 < fuel)%nat ->
     Copy fuel s {| chunks := cs; eof_with_data := e |} =
     Some {| c_written := Z.of_nat (length p); c_err := None;
             c_sinks := set_sink s (sink_of t) (b ++ p);
             c_src := {| chunks := []; eof_with_data := e |} |}).
Proof.
  intros Hlen. split; [| split; [| split]].
  - intros r. apply Write_Recorder.
  - intros b. apply Write_Buffer.
  - apply encode_layout, Hlen.
  - intros cs e s b fuel Hstream Hsink Hfuel.
    rewrite (Copy_frames [{| f_type := t; f_payload := p |}] [] cs e s fuel).
    + cbn [fold_left payload_bytes fold_right f_payload]. unfold deliver.
      cbn [f_type f_payload]. rewrite Hsink, Z.add_0_r.
      rewrite int64_small by lia. reflexivity.
    + repeat constructor. exact Hlen.
    + apply truncated_header. unfold stdWriterPrefixLen. simpl. lia.
    + rewrite Hstream. simpl. now rewrite !app_nil_r.
    + simpl. lia.
Qed.

Lemma write_then_copy_roundtrip_witness :
  Z.of_nat (length [x68; x69]) < 2 ^ 32 /\
  concat [[x02; x00; x00]; [x00; x00; x00; x00; x02; x68]; [x69]] =
    encode {| f_type := Stderr; f_payload := [x68; x69] |} /\
  get_sink {| dstout := Some [x6f]; dsterr := Some [x65]; data := None |}
    (sink_of Stderr) = Some [x65] /\
  (3 + 2 < 6)%nat /\
  Copy 6 {| dstout := Some [x6f]; dsterr := Some [x65]; data := None |}
    {| chunks := [[x02; x00; x00]; [x00; x00; x00; x00; x02; x68]; [x69]];
       eof_with_data := true |} =
  Some {| c_written := 2; c_err := None;
          c_sinks := {| dstout := Some [x6f]; dsterr := Some [x65; x68; x69];
                        data := None |};
          c_src := {| chunks := []; eof_with_data := true |} |}.
Proof.
  assert (Hlen : Z.of_nat (length [x68; x69]) < 2 ^ 32) by (simpl; lia).
  split; [exact Hlen |].
  split; [reflexivity |]. split; [reflexivity |]. split; [lia |].
  apply (proj2 (proj2 (proj2 (write_then_copy_roundtrip Stderr [x68; x69] Hlen)))
           [[x02; x00; x00]; [x00; x00; x00; x00; x02; x68]; [x69]] true
           {| dstout := Some [x6f]; dsterr := Some [x65]; data := None |}
           [x65] 6%nat); [reflexivity | reflexivity | simpl; lia].
Defined.



(** *** A payload of 2^32 bytes *)

Lemma zeros_as_frames (k : nat) :
  concat (map encode (repeat (no_payload Stdin) k)) = repeat x00 (8 * k).
Proof.
  induction k as [| k IH]; [reflexivity |].
  replace (8 * S k)%nat with (8 + 8 * k)%nat by lia.
  rewrite repeat_app. simpl repeat at 1. simpl map. simpl concat.
  rewrite IH. reflexivity.
Qed.

Lemma no_payload_fits (k : nat) (t : StdType) : Forall fits (repeat (no_payload t) k).
Proof.
  induction k as [| k IH]; simpl; constructor; auto. unfold fits. simpl. lia.
Qed.

Lemma no_payload_bytes (k : nat) (t : StdType) :
  payload_bytes (repeat (no_payload t) k) = 0.
Proof. induction k as [| k IH]; simpl; [reflexivity | rewrite IH; reflexivity]. Qed.

Lemma no_payload_delivers_nothing (k : nat) (t : StdType) :
  fold_left deliver (repeat (no_payload t) k)
    empty_sinks =
  empty_sinks.
Proof.
  induction k as [| k IH]; [reflexivity |].
  simpl repeat. cbn [fold_left].
  replace (deliver _ (no_payload t)) with empty_sinks
    by (destruct t; reflexivity).
  exact IH.
Qed.

(** What becomes of [n = 2^32] zero bytes: the length field of the frame
    says zero, and the decoder reads the payload as frames without
    payload. *)
Lemma zeros_misframed (n k : nat) :
  Z.of_nat n = 2 ^ 32 -> n = (8 * k)%nat ->
  let p := repeat x00 n in
  let out := encode {| f_type := Stdout; f_payload := p |} in
  stdWriter_Write (NewWriter (Some ([] : Buffer)) Stdout) (Some p) =
    ((Z.of_nat (length p), None),
     Some {| sw_Writer := Some out; prefix := x01 |}) /\
  Z.of_nat (length p) = 2 ^ 32 /\
  big_endian (firstn 4 (skipn 4 out)) = 0 /\
  Copy (k + 4) empty_sinks
    {| chunks := [out]; eof_with_data := false |} =
  Some {| c_written := 0; c_err := None;
          c_sinks := empty_sinks;
          c_src := {| chunks := []; eof_with_data := false |} |}.
Proof.
  intros Hn Hk p out.
  assert (Hlen : Z.of_nat (length p) = 2 ^ 32)
    by (unfold p; rewrite repeat_length; exact Hn).
  assert (Hout : out = encode (no_payload Stdout) ++
                       concat (map encode (repeat (no_payload Stdin) k))).
  { unfold out, encode. cbn [f_type f_payload no_payload].
    rewrite Hlen, zeros_as_frames, <- Hk, app_nil_r. reflexivity. }
  split; [apply (Write_Buffer Stdout p []) |].
  split; [exact Hlen |].
  split; [rewrite Hout; reflexivity |].
  rewrite (Copy_frames (no_payload Stdout :: repeat (no_payload Stdin) k) []
             [out] false _ (k + 4)).
  - cbn [fold_left payload_bytes fold_right].
    fold (payload_bytes (repeat (no_payload Stdin) k)).
    rewrite no_payload_bytes.
    replace (deliver _ (no_payload Stdout)) with empty_sinks by reflexivity.
    rewrite no_payload_delivers_nothing. reflexivity.
  - constructor; [unfold fits; simpl; lia | apply no_payload_fits].
  - apply truncated_header. unfold stdWriterPrefixLen. simpl. lia.
  - rewrite Hout. simpl. now rewrite !app_nil_r.
  - simpl. rewrite repeat_length. lia.
Qed.

(** C3, as the claim has it, fails for a payload of 2^32 bytes: the
    length field of the frame that [Write] emits holds [uint32(len(p))],
    which is 0 and not [len(p)], and [Copy] on the emitted stream delivers
    no byte of it to the stdout sink. *)
Lemma write_4GiB_is_misframed :
  let p := repeat x00 (Z.to_nat (2 ^ 32)) in
  let out := encode {| f_type := Stdout; f_payload := p |} in
  stdWriter_Write (NewWriter (Some ([] : Buffer)) Stdout) (Some p) =
    ((Z.of_nat (length p), None),
     Some {| sw_Writer := Some out; prefix := x01 |}) /\
  Z.of_nat (length p) = 2 ^ 32 /\
  big_endian (firstn 4 (skipn 4 out)) = 0 /\
  Copy (Z.to_nat (2 ^ 29) + 4)
    empty_sinks
    {| chunks := [out]; eof_with_data := false |} =
  Some {| c_written := 0; c_err := None;
          c_sinks := empty_sinks;
          c_src := {| chunks := []; eof_with_data := false |} |}.
Proof.
  apply (zeros_misframed (Z.to_nat (2 ^ 32)) (Z.to_nat (2 ^ 29))).
  - rewrite Z2Nat.id; lia.
  - lia.
Qed.

(** C9.  [Write(nil)] on an instantiated writer returns [0, nil] and leaves
    the underlying writer as it was: it is neither written to nor flushed.
    A payload of length zero that is not nil puts the eight bytes of a
    header, and nothing else, into the underlying buffer. *)
Theorem Write_nil_is_no_frame (t : StdType) :
  (forall (W : Type) (HW : Writer W) (under : W),
     stdWriter_Write (NewWriter (Some under) t) None =
     ((0, None), NewWriter (Some under) t)) /\
  (forall b : Buffer,
     stdWriter_Write (NewWriter (Some b) t) (Some []) =
     ((0, None),
      Some {| sw_Writer :=
                Some (b ++ [StdType_byte t; x00; x00; x00; x00; x00; x00; x00]);
              prefix := StdType_byte t |})).
Proof.
  split.
  - intros W HW under. reflexivity.
  - intros b. reflexivity.
Qed.

End StdcopyProofs.

(** ** The network identity *)

Module ContainerPluginProofs.
Import ContainerPlugin.

Lemma int_range (x : Z) : - 2 ^ 31 <= int x < 2 ^ 31.
Proof.
  unfold int. pose proof (Z.mod_pos_bound (x + 2 ^ 31) (2 ^ 32) ltac:(lia)). lia.
Qed.

Lemma int_small (x : Z) : - 2 ^ 31 <= x < 2 ^ 31 -> int x = x.
Proof. intros Hx. unfold int. rewrite Z.mod_small; lia. Qed.

Lemma int_shift (x k : Z) : int (x + 2 ^ 32 * k) = int x.
Proof.
  unfold int. f_equal.
  replace (x + 2 ^ 32 * k + 2 ^ 31) with (x + 2 ^ 31 + k * 2 ^ 32) by lia.
  apply Z_mod_plus_full.
Qed.

Lemma int_wraps (x : Z) : exists k, int x = x + 2 ^ 32 * k.
Proof.
  exists (- ((x + 2 ^ 31) / 2 ^ 32)). unfold int.
  pose proof (Z.div_mod (x + 2 ^ 31) (2 ^ 32) ltac:(lia)). lia.
Qed.

Lemma long_wraps (x : Z) : exists k, long x = x + 2 ^ 32 * k.
Proof.
  exists (- (2 ^ 32 * ((x + 2 ^ 63) / 2 ^ 64))). unfold long.
  pose proof (Z.div_mod (x + 2 ^ 63) (2 ^ 64) ltac:(lia)). lia.
Qed.

(** The casts and wrap-arounds of the expression for [ip] amount to one
    wrap-around of the exact sum. *)
Lemma ip_wraps_once (base r off host_id : Z) :
  int (int (base + int (long (long (r + off) * 2 ^ 7))) + host_id) =
  int (base + (r + off) * 2 ^ 7 + host_id).
Proof.
  destruct (long_wraps (r + off)) as [k1 ->].
  destruct (long_wraps ((r + off + 2 ^ 32 * k1) * 2 ^ 7)) as [k2 ->].
  destruct (int_wraps ((r + off + 2 ^ 32 * k1) * 2 ^ 7 + 2 ^ 32 * k2)) as [k3 ->].
  destruct (int_wraps (base + ((r + off + 2 ^ 32 * k1) * 2 ^ 7 + 2 ^ 32 * k2
                               + 2 ^ 32 * k3))) as [k4 ->].
  rewrite <- (int_shift (base + (r + off) * 2 ^ 7 + host_id)
                (k1 * 2 ^ 7 + k2 + k3 + k4)).
  f_equal. lia.
Qed.

Lemma land_255 (x : Z) : Z.land x 0xFF = x mod 256.
Proof. change 0xFF with (Z.ones 8). rewrite Z.land_ones by lia. reflexivity. Qed.

(** The two tests on the offset, taken together. *)
Lemma offset_tests (w off uid : Z) :
  (if uid <? w then 0 else if 1000 <=? off then 0 else off) = code_offset w off uid.
Proof.
  unfold code_offset. destruct (uid <? w), (1000 <=? off); reflexivity.
Qed.

(** What [getIpAddress] returns for arguments in range. *)
Lemma getIpAddress_render (config : gmap string Z) (uid host_id : Z) :
  0 <= uid <= Integer_MAX_VALUE -> 1 <= host_id <= 127 ->
  getInt config "UID_WRAPAROUND" 65536 <> 0 ->
  getIpAddress config uid host_id =
  inr (render (int (0x7F000000 +
                    (Z.rem uid (getInt config "UID_WRAPAROUND" 65536) +
                     code_offset (getInt config "UID_WRAPAROUND" 65536)
                                 (getInt config "IP_OFFSET" 1) uid) * 2 ^ 7 +
                    host_id))).
Proof.
  intros Huid Hhost Hw. unfold getIpAddress.
  destruct (Z.ltb_spec uid 0); [lia |].
  destruct (Z.ltb_spec Integer_MAX_VALUE uid); [lia |].
  destruct (Z.ltb_spec host_id 1); [lia |].
  destruct (Z.ltb_spec 127 host_id); [lia |].
  cbn [orb]. cbv zeta.
  destruct (Z.eqb_spec (getInt config "UID_WRAPAROUND" 65536) 0); [contradiction |].
  rewrite <- offset_tests.
  set (w := getInt config "UID_WRAPAROUND" 65536).
  set (off := getInt config "IP_OFFSET" 1).
  replace (if uid <? w then 0 else if 1000 <=? off then 0 else off)
    with (if uid <? w then 0 else (if 1000 <=? off then 0 else off))
    by reflexivity.
  rewrite ip_wraps_once.
  rewrite !Z.shiftr_div_pow2, !land_255 by lia.
  reflexivity.
Qed.

Example getIpAddress_defaults :
  getIpAddress ∅ 5 1 = inr "127.0.2.129" /\
  getIpAddress ∅ 65535 127 = inr "127.127.255.255" /\
  getIpAddress ∅ 65536 1 = inr "127.0.0.129" /\
  getIpAddress ∅ 1000 0 =
    inl (IllegalArgumentException
           "Supplied host identifier 0 must be between 1 and 127") /\
  getIpAddress ∅ (-1) 1 =
    inl (IllegalArgumentException
           "User uid -1 must be unsigned 32 bit integers.").
Proof. repeat split; vm_compute; reflexivity. Qed.

(** *** Reading the fields back from the string *)

Lemma pretty_N_go_dotless (x : N) :
  forall s, dotless (pretty_N_go x s) = dotless s.
Proof.
  induction (N.lt_wf_0 x) as [x _ IH]; intros s.
  destruct (N.eq_dec x 0) as [-> | Hx]; [reflexivity |].
  rewrite pretty_N_go_step by lia.
  rewrite IH by (apply N.div_lt; lia).
  unfold pretty_N_char.
  destruct (x `mod` 10)%N as [| q]; [reflexivity |].
  do 4 (destruct q as [q | q |]; try reflexivity).
Qed.

Lemma pretty_Z_dotless (z : Z) : dotless (pretty z) = true.
Proof.
  destruct z as [| q | q]; [reflexivity | |];
    unfold pretty, pretty_Z, pretty, pretty_positive, pretty, pretty_N;
    (destruct (decide (N.pos q = 0%N)); [discriminate |]); simpl;
    apply pretty_N_go_dotless.
Qed.

Lemma split_at_dot (a : string) :
  forall a' r r',
    dotless a = true -> dotless a' = true ->
    a +:+ String "."%char r = a' +:+ String "."%char r' -> a = a' /\ r = r'.
Proof.
  induction a as [| c a IH]; intros [| c' a'] r r' Ha Ha' Heq; simpl in *.
  - injection Heq as ->. auto.
  - injection Heq as <- _. simpl in Ha'. discriminate.
  - injection Heq as -> _. simpl in Ha. discriminate.
  - injection Heq as -> Heq.
    apply andb_prop in Ha as [_ Ha]. apply andb_prop in Ha' as [_ Ha'].
    destruct (IH a' r r' Ha Ha' Heq) as [-> ->]. auto.
Qed.

Lemma dotted_inj (a b c d a' b' c' d' : Z) :
  dotted a b c d = dotted a' b' c' d' -> a = a' /\ b = b' /\ c = c' /\ d = d'.
Proof.
  unfold dotted. intros H.
  apply split_at_dot in H as [Ha H]; try apply pretty_Z_dotless.
  apply split_at_dot in H as [Hb H]; try apply pretty_Z_dotless.
  apply split_at_dot in H as [Hc Hd]; try apply pretty_Z_dotless.
  repeat split; apply (inj pretty); assumption.
Qed.

Lemma render_inj (x y : Z) : render x = render y -> x = y.
Proof.
  unfold render. intros H. apply dotted_inj in H as (Ha & Hb & Hc & Hd).
  pose proof (Z.div_mod x (2 ^ 8) ltac:(lia)).
  pose proof (Z.div_mod y (2 ^ 8) ltac:(lia)).
  pose proof (Z.div_mod (x / 2 ^ 8) (2 ^ 8) ltac:(lia)).
  pose proof (Z.div_mod (y / 2 ^ 8) (2 ^ 8) ltac:(lia)).
  pose proof (Z.div_mod (x / 2 ^ 8 / 2 ^ 8) (2 ^ 8) ltac:(lia)).
  pose proof (Z.div_mod (y / 2 ^ 8 / 2 ^ 8) (2 ^ 8) ltac:(lia)).
  replace (x / 2 ^ 16) with (x / 2 ^ 8 / 2 ^ 8) in *
    by (rewrite Z.div_div by lia; reflexivity).
  replace (y / 2 ^ 16) with (y / 2 ^ 8 / 2 ^ 8) in *
    by (rewrite Z.div_div by lia; reflexivity).
  replace (x / 2 ^ 24) with (x / 2 ^ 8 / 2 ^ 8 / 2 ^ 8) in *
    by (rewrite !Z.div_div by lia; reflexivity).
  replace (y / 2 ^ 24) with (y / 2 ^ 8 / 2 ^ 8 / 2 ^ 8) in *
    by (rewrite !Z.div_div by lia; reflexivity).
  change 256 with (2 ^ 8) in *.
  lia.
Qed.

(** C5 (as amended).  [getIpAddress] is a function of the uid, the host
    identifier and the two settings that it reads of the configuration:
    equal arguments give the same result.  When the configured wraparound
    is at most 2^25 (the default is 65536), two pairs of a uid below the
    wraparound and a host identifier from 1 to 127 that get the same
    address are the same pair. *)
Theorem getIpAddress_deterministic_injective (config : gmap string Z) :
  (forall (config' : gmap string Z) (uid uid' host_id host_id' : Z),
     config' !! "UID_WRAPAROUND" = config !! "UID_WRAPAROUND" ->
     config' !! "IP_OFFSET" = config !! "IP_OFFSET" ->
     uid = uid' -> host_id = host_id' ->
     getIpAddress config uid host_id = getIpAddress config' uid' host_id') /\
  (getInt config "UID_WRAPAROUND" 65536 <= 2 ^ 25 ->
   forall uid uid' host_id host_id' : Z,
     0 <= uid < getInt config "UID_WRAPAROUND" 65536 ->
     0 <= uid' < getInt config "UID_WRAPAROUND" 65536 ->
     1 <= host_id <= 127 -> 1 <= host_id' <= 127 ->
     getIpAddress config uid host_id = getIpAddress config uid' host_id' ->
     uid = uid' /\ host_id = host_id').
Proof.
  split.
  { intros config' uid uid' h h' Hw Hoff -> ->.
    unfold getIpAddress, getInt. now rewrite Hw, Hoff. }
  intros Hw uid uid' h h' Hu Hu' Hh Hh' Heq.
  set (w := getInt config "UID_WRAPAROUND" 65536) in *.
  rewrite !getIpAddress_render in Heq
    by (try fold w; unfold Integer_MAX_VALUE; lia).
  fold w in Heq. injection Heq as Heq. apply render_inj in Heq.
  unfold code_offset in Heq.
  destruct (Z.ltb_spec uid w); [| lia].
  destruct (Z.ltb_spec uid' w); [| lia].
  cbn [orb] in Heq.
  rewrite !Z.rem_small, !Z.add_0_r in Heq by lia.
  replace (0x7F000000 + uid * 2 ^ 7 + h)
    with (uid * 2 ^ 7 + h + 0x7F000000) in Heq by lia.
  replace (0x7F000000 + uid' * 2 ^ 7 + h')
    with (uid' * 2 ^ 7 + h' + 0x7F000000) in Heq by lia.
  destruct (int_wraps (uid * 2 ^ 7 + h + 0x7F000000)) as [k Hk].
  destruct (int_wraps (uid' * 2 ^ 7 + h' + 0x7F000000)) as [l Hl].
  lia.
Qed.

Lemma getIpAddress_deterministic_injective_witness :
  getInt ∅ "UID_WRAPAROUND" 65536 <= 2 ^ 25 /\
  0 <= 7 < getInt ∅ "UID_WRAPAROUND" 65536 /\
  1 <= 3 <= 127 /\
  getIpAddress ∅ 7 3 = getIpAddress ∅ 7 3 /\
  7 = 7 /\ 3 = 3.
Proof.
  assert (Hw : getInt ∅ "UID_WRAPAROUND" 65536 <= 2 ^ 25)
    by (vm_compute; discriminate).
  assert (Hu : 0 <= 7 < getInt ∅ "UID_WRAPAROUND" 65536)
    by (vm_compute; split; [discriminate | reflexivity]).
  assert (Hh : 1 <= 3 <= 127) by lia.
  split; [exact Hw |]. split; [exact Hu |]. split; [exact Hh |].
  split; [reflexivity |].
  apply (proj2 (getIpAddress_deterministic_injective ∅) Hw 7 7 3 3 Hu Hu Hh Hh).
  reflexivity.
Defined.

(** C5, as the claim has it, fails for a configured wraparound above 2^25:
    with UID_WRAPAROUND = 2^26 the uids 0 and 2^25 are both below the
    wraparound and get the same address for host identifier 1. *)
Lemma getIpAddress_collision :
  getInt {[ "UID_WRAPAROUND" := 2 ^ 26 ]} "UID_WRAPAROUND" 65536 = 2 ^ 26 /\
  getIpAddress {[ "UID_WRAPAROUND" := 2 ^ 26 ]} 0 1 = inr "127.0.0.1" /\
  getIpAddress {[ "UID_WRAPAROUND" := 2 ^ 26 ]} (2 ^ 25) 1 = inr "127.0.0.1" /\
  0 < 2 ^ 25 < 2 ^ 26.
Proof. repeat split; vm_compute; reflexivity. Qed.

Lemma render_dotted_quad (x : Z) : 0 <= x < 2 ^ 32 -> dotted_quad (render x).
Proof.
  intros Hx. exists (x / 2 ^ 24), (x / 2 ^ 16 mod 256), (x / 2 ^ 8 mod 256), (x mod 256).
  pose proof (Z.mod_pos_bound (x / 2 ^ 16) 256 ltac:(lia)).
  pose proof (Z.mod_pos_bound (x / 2 ^ 8) 256 ltac:(lia)).
  pose proof (Z.mod_pos_bound x 256 ltac:(lia)).
  assert (0 <= x / 2 ^ 24) by (apply Z.div_pos; lia).
  assert (x / 2 ^ 24 < 256) by (apply Z.div_lt_upper_bound; lia).
  repeat split; try lia.
Qed.

(** The address in arithmetic. *)
Lemma getIpAddress_address (config : gmap string Z) (uid host_id : Z) :
  0 <= uid <= Integer_MAX_VALUE -> 1 <= host_id <= 127 ->
  0 < getInt config "UID_WRAPAROUND" 65536 ->
  getIpAddress config uid host_id =
  inr (render (int (address (getInt config "UID_WRAPAROUND" 65536)
                      (code_offset (getInt config "UID_WRAPAROUND" 65536)
                                   (getInt config "IP_OFFSET" 1) uid)
                      uid host_id))).
Proof.
  intros Huid Hhost Hw.
  rewrite getIpAddress_render by lia.
  unfold address. rewrite Z.rem_mod_nonneg by lia. reflexivity.
Qed.

(** C6 (as amended).  For a uid from 0 to 2^31-1, a host identifier from 1
    to 127 and a positive configured wraparound, [getIpAddress] returns
    the four bytes, in decimal and separated by dots, of the 32-bit
    address: the loopback base plus [(uid mod wraparound) + offset] shifted
    left by 7, plus the host identifier, wrapped to 32 bits.  The offset is
    0 while the uid is below the wraparound, and once the configured
    offset is 1000 or more; it is the configured offset otherwise.  When
    the sum stays below 2^31 nothing wraps and the string is a dotted
    quad. *)
Theorem getIpAddress_formula (config : gmap string Z) (uid host_id : Z) :
  0 <= uid <= Integer_MAX_VALUE -> 1 <= host_id <= 127 ->
  0 < getInt config "UID_WRAPAROUND" 65536 ->
  let w := getInt config "UID_WRAPAROUND" 65536 in
  let offset := code_offset w (getInt config "IP_OFFSET" 1) uid in
  getIpAddress config uid host_id = inr (render (int (address w offset uid host_id))) /\
  (0 <= address w offset uid host_id < 2 ^ 31 ->
   getIpAddress config uid host_id = inr (render (address w offset uid host_id)) /\
   dotted_quad (render (address w offset uid host_id))).
Proof.
  intros Huid Hhost Hw w offset.
  pose proof (getIpAddress_address config uid host_id Huid Hhost Hw) as Hcode.
  fold w in Hcode. fold offset in Hcode.
  split; [exact Hcode |].
  intros Hrange. rewrite Hcode, int_small by lia.
  split; [reflexivity | apply render_dotted_quad; lia].
Qed.

Lemma getIpAddress_formula_witness :
  0 <= 65541 <= Integer_MAX_VALUE /\ 1 <= 1 <= 127 /\
  0 < getInt ∅ "UID_WRAPAROUND" 65536 /\
  0 <= address 65536 1 65541 1 < 2 ^ 31 /\
  getIpAddress ∅ 65541 1 = inr (render (address 65536 1 65541 1)) /\
  dotted_quad (render (address 65536 1 65541 1)).
Proof.
  assert (Hu : 0 <= 65541 <= Integer_MAX_VALUE) by (unfold Integer_MAX_VALUE; lia).
  assert (Hh : 1 <= 1 <= 127) by lia.
  assert (Hw : 0 < getInt ∅ "UID_WRAPAROUND" 65536) by reflexivity.
  assert (Ha : 0 <= address 65536 1 65541 1 < 2 ^ 31)
    by (vm_compute; split; [discriminate | reflexivity]).
  split; [exact Hu |]. split; [exact Hh |]. split; [exact Hw |].
  split; [exact Ha |].
  apply (proj2 (getIpAddress_formula ∅ 65541 1 Hu Hh Hw) Ha).
Defined.

(** C6, as the claim has it, fails on both sides of the wraparound.  With
    the default configuration (wraparound 65536, offset 1): for uid 65541,
    above the wraparound, the code adds the offset where the claim forces
    it to 0; for uid 5, below the wraparound, the code forces the offset
    to 0 where the claim adds it. *)
Lemma getIpAddress_offset_is_inverted :
  getIpAddress ∅ 65541 1 = inr "127.0.3.1" /\
  render (int (address 65536 (spec_offset 65536 1 65541) 65541 1)) = "127.0.2.129" /\
  getIpAddress ∅ 5 1 = inr "127.0.2.129" /\
  render (int (address 65536 (spec_offset 65536 1 5) 5 1)) = "127.0.3.1".
Proof. repeat split; vm_compute; reflexivity. Qed.

(** C10 (as amended).  A host identifier outside 1..127, and a uid that is
    negative or above 2^31-1, make [getIpAddress] throw
    IllegalArgumentException.  For a uid and a host identifier in range and
    a configured wraparound that is not 0, no exception is raised and the
    result is four decimal numbers separated by dots, the last three from
    0 to 255 and the first from -128 to 127.  When moreover the wraparound
    is between 1 and 2^17 - 1000 and the configured offset is not negative,
    as with the defaults 65536 and 1, the first number is 127 and the
    string is a dotted quad. *)
Theorem getIpAddress_range_checks (config : gmap string Z) (uid host_id : Z) :
  (uid < 0 \/ Integer_MAX_VALUE < uid \/ host_id < 1 \/ 127 < host_id ->
   exists msg, getIpAddress config uid host_id = inl (IllegalArgumentException msg)) /\
  (0 <= uid <= Integer_MAX_VALUE -> 1 <= host_id <= 127 ->
   getInt config "UID_WRAPAROUND" 65536 <> 0 ->
   exists a b c d,
     getIpAddress config uid host_id = inr (dotted a b c d) /\
     -128 <= a <= 127 /\ 0 <= b <= 255 /\ 0 <= c <= 255 /\ 0 <= d <= 255) /\
  (0 <= uid <= Integer_MAX_VALUE -> 1 <= host_id <= 127 ->
   1 <= getInt config "UID_WRAPAROUND" 65536 <= 2 ^ 17 - 1000 ->
   0 <= getInt config "IP_OFFSET" 1 ->
   exists b c d,
     getIpAddress config uid host_id = inr (dotted 127 b c d) /\
     0 <= b <= 255 /\ 0 <= c <= 255 /\ 0 <= d <= 255 /\
     dotted_quad (dotted 127 b c d)).
Proof.
  split; [| split].
  - intros Hbad. unfold getIpAddress.
    destruct (Z.ltb_spec uid 0); [eauto |].
    destruct (Z.ltb_spec Integer_MAX_VALUE uid); [eauto |].
    destruct (Z.ltb_spec host_id 1); [eauto |].
    destruct (Z.ltb_spec 127 host_id); [eauto |].
    lia.
  - intros Huid Hhost Hw. rewrite getIpAddress_render by assumption.
    set (ip := int _). pose proof (int_range ip) as Hip.
    assert (Hrange : - 2 ^ 31 <= ip < 2 ^ 31) by (subst ip; apply int_range).
    exists (ip / 2 ^ 24), (ip / 2 ^ 16 mod 256), (ip / 2 ^ 8 mod 256), (ip mod 256).
    pose proof (Z.mod_pos_bound (ip / 2 ^ 16) 256 ltac:(lia)).
    pose proof (Z.mod_pos_bound (ip / 2 ^ 8) 256 ltac:(lia)).
    pose proof (Z.mod_pos_bound ip 256 ltac:(lia)).
    assert (-128 <= ip / 2 ^ 24) by (apply Z.div_le_lower_bound; lia).
    assert (ip / 2 ^ 24 < 128) by (apply Z.div_lt_upper_bound; lia).
    repeat split; try lia.
  - intros Huid Hhost Hw Hoff.
    set (w := getInt config "UID_WRAPAROUND" 65536) in *.
    set (off := getInt config "IP_OFFSET" 1) in *.
    pose proof (getIpAddress_address config uid host_id Huid Hhost
                  ltac:(fold w; lia)) as Hexact.
    fold w off in Hexact.
    assert (Hoffset : 0 <= code_offset w off uid <= 999).
    { unfold code_offset.
      destruct (uid <? w); cbn [orb]; [lia |].
      destruct (Z.leb_spec 1000 off); lia. }
    pose proof (Z.mod_pos_bound uid w ltac:(lia)) as Hmod.
    assert (Haddr : 0x7F000000 <= address w (code_offset w off uid) uid host_id
                    < 0x7F000000 + 2 ^ 24) by (unfold address; lia).
    rewrite Hexact, int_small by lia.
    set (x := address w (code_offset w off uid) uid host_id) in *.
    exists (x / 2 ^ 16 mod 256), (x / 2 ^ 8 mod 256), (x mod 256).
    pose proof (Z.mod_pos_bound (x / 2 ^ 16) 256 ltac:(lia)).
    pose proof (Z.mod_pos_bound (x / 2 ^ 8) 256 ltac:(lia)).
    pose proof (Z.mod_pos_bound x 256 ltac:(lia)).
    assert (Hfirst : x / 2 ^ 24 = 127).
    { symmetry. apply (Z.div_unique x (2 ^ 24) 127 (x - 127 * 2 ^ 24)); lia. }
    unfold render. rewrite Hfirst.
    repeat split; try lia.
    exists 127, (x / 2 ^ 16 mod 256), (x / 2 ^ 8 mod 256), (x mod 256).
    repeat split; lia.
Qed.

Lemma getIpAddress_range_checks_witness :
  (0 < 0 \/ Integer_MAX_VALUE < 0 \/ 128 < 1 \/ 127 < 128) /\
  (exists msg, getIpAddress ∅ 0 128 = inl (IllegalArgumentException msg)) /\
  0 <= 5 <= Integer_MAX_VALUE /\ 1 <= 1 <= 127 /\
  1 <= getInt ∅ "UID_WRAPAROUND" 65536 <= 2 ^ 17 - 1000 /\
  0 <= getInt ∅ "IP_OFFSET" 1 /\
  exists b c d,
    getIpAddress ∅ 5 1 = inr (dotted 127 b c d) /\
    0 <= b <= 255 /\ 0 <= c <= 255 /\ 0 <= d <= 255 /\
    dotted_quad (dotted 127 b c d).
Proof.
  assert (Hbad : 0 < 0 \/ Integer_MAX_VALUE < 0 \/ 128 < 1 \/ 127 < 128)
    by (right; right; right; lia).
  assert (Hu : 0 <= 5 <= Integer_MAX_VALUE) by (unfold Integer_MAX_VALUE; lia).
  assert (Hh : 1 <= 1 <= 127) by lia.
  assert (Hw : 1 <= getInt ∅ "UID_WRAPAROUND" 65536 <= 2 ^ 17 - 1000)
    by (vm_compute; split; discriminate).
  assert (Ho : 0 <= getInt ∅ "IP_OFFSET" 1) by (vm_compute; discriminate).
  split; [exact Hbad |].
  split; [apply (proj1 (getIpAddress_range_checks ∅ 0 128) Hbad) |].
  split; [exact Hu |]. split; [exact Hh |]. split; [exact Hw |].
  split; [exact Ho |].
  apply (proj2 (proj2 (getIpAddress_range_checks ∅ 5 1)) Hu Hh Hw Ho).
Defined.

(** C10, as the claim has it, fails for a configured wraparound of 0: the
    uid and the host identifier are in range and the division by the
    wraparound throws ArithmeticException.  And with a wraparound of 2^18
    the address of uid 2^17 leaves the positive [int]s, and the string
    returned is not a dotted quad. *)
Lemma getIpAddress_throws_in_range :
  0 <= 5 <= Integer_MAX_VALUE /\ 1 <= 1 <= 127 /\
  getIpAddress {[ "UID_WRAPAROUND" := 0 ]} 5 1 =
    inl (ArithmeticException "/ by zero") /\
  0 <= 2 ^ 17 <= Integer_MAX_VALUE /\
  getIpAddress {[ "UID_WRAPAROUND" := 2 ^ 18 ]} (2 ^ 17) 1 = inr "-128.0.0.1" /\
  ~ dotted_quad "-128.0.0.1".
Proof.
  split; [unfold Integer_MAX_VALUE; lia |]. split; [lia |].
  split; [vm_compute; reflexivity |].
  split; [unfold Integer_MAX_VALUE; lia |].
  split; [vm_compute; reflexivity |].
  intros (a & b & c & d & Ha & _ & _ & _ & Heq).
  change "-128.0.0.1" with (dotted (-128) 0 0 1) in Heq.
  apply dotted_inj in Heq as (Heq & _). lia.
Qed.

End ContainerPluginProofs.

(** ** Removal of a cgroup *)

Module CgroupProofs.
Import Cgroup.

Lemma append_cons (c : ascii) (s t : string) :
  String c s +:+ t = String c (s +:+ t).
Proof. reflexivity. Qed.

Lemma append_nil_l (t : string) : EmptyString +:+ t = t.
Proof. reflexivity. Qed.

Lemma append_nil_r (s : string) : s +:+ EmptyString = s.
Proof.
  induction s as [| c s IH]; [reflexivity |]. now rewrite append_cons, IH.
Qed.

Lemma append_assoc (a b c : string) : (a +:+ b) +:+ c = a +:+ (b +:+ c).
Proof.
  induction a as [| x a IH]; [reflexivity |]. now rewrite !append_cons, IH.
Qed.

Lemma eol_free_append (a b : string) :
  eol_free (a +:+ b) = eol_free a && eol_free b.
Proof.
  induction a as [| x a IH]; [reflexivity |].
  rewrite append_cons. cbn [eol_free]. rewrite IH. now rewrite !andb_assoc.
Qed.

(** *** Lines *)

Lemma readLines_from_cons (line : string) (c : ascii) (s : string) :
  readLines_from line (String c s) =
  if Ascii.eqb c LF then line :: readLines_from EmptyString s
  else if Ascii.eqb c CR then
    match s with
    | String c' s' =>
        if Ascii.eqb c' LF then line :: readLines_from EmptyString s'
        else line :: readLines_from EmptyString s
    | EmptyString => line :: readLines_from EmptyString s
    end
  else readLines_from (line +:+ String c EmptyString) s.
Proof. reflexivity. Qed.

Example readLines_endings :
  readLines ("a" +:+ String LF "b" +:+ String CR (String LF "c") +:+
             String CR "d" +:+ String LF (String LF "e")) =
  ["a"; "b"; "c"; "d"; ""; "e"].
Proof. reflexivity. Qed.

(** The lines read hold no end-of-line byte.  The statement is about a
    string and about the string with one more byte in front, since the
    reading looks one byte ahead after a carriage return. *)
Lemma readLines_from_eol_free (s : string) :
  (forall line, eol_free line = true ->
     Forall (fun l => eol_free l = true) (readLines_from line s)) /\
  (forall c line, eol_free line = true ->
     Forall (fun l => eol_free l = true) (readLines_from line (String c s))).
Proof.
  assert (Hmore : forall c line,
            Ascii.eqb c LF = false -> Ascii.eqb c CR = false ->
            eol_free line = true ->
            eol_free (line +:+ String c EmptyString) = true).
  { intros c line Hlf Hcr Hline. rewrite eol_free_append, Hline.
    cbn [eol_free]. now rewrite Hlf, Hcr. }
  induction s as [| c' s [IH1 IH2]].
  - assert (H0 : forall line, eol_free line = true ->
                Forall (fun l => eol_free l = true) (readLines_from line EmptyString)).
    { intros line Hline. cbn [readLines_from].
      destruct line; repeat constructor; assumption. }
    split; [exact H0 |].
    intros c line Hline. rewrite readLines_from_cons.
    destruct (Ascii.eqb c LF) eqn:Hlf; [constructor; auto |].
    destruct (Ascii.eqb c CR) eqn:Hcr; [constructor; auto |].
    apply H0, Hmore; assumption.
  - split; [intros line Hline; apply IH2, Hline |].
    intros c line Hline. rewrite readLines_from_cons.
    destruct (Ascii.eqb c LF) eqn:Hlf; [constructor; auto |].
    destruct (Ascii.eqb c CR) eqn:Hcr.
    + destruct (Ascii.eqb c' LF); constructor; auto.
    + apply IH2, Hmore; assumption.
Qed.

Lemma readLines_eol_free (s : string) :
  Forall (fun l => eol_free l = true) (readLines s).
Proof. apply readLines_from_eol_free. reflexivity. Qed.

Lemma readLines_from_line (l : string) :
  forall line rest,
    eol_free l = true ->
    readLines_from line (l +:+ String LF rest) =
    (line +:+ l) :: readLines_from EmptyString rest.
Proof.
  induction l as [| c l IH]; intros line rest Hl.
  - rewrite append_nil_l, append_nil_r, readLines_from_cons.
    now rewrite Ascii.eqb_refl.
  - cbn [eol_free] in Hl.
    apply andb_prop in Hl as [Hc Hl]. apply andb_prop in Hc as [Hlf Hcr].
    apply negb_true_iff in Hlf, Hcr.
    rewrite append_cons, readLines_from_cons, Hlf, Hcr.
    rewrite IH by exact Hl. rewrite append_assoc, append_cons, append_nil_l.
    reflexivity.
Qed.

Lemma readLines_unlines (ls : list string) :
  Forall (fun l => eol_free l = true) ls -> readLines (unlines ls) = ls.
Proof.
  unfold readLines. induction 1 as [| l ls Hl _ IH]; [reflexivity |].
  cbn [unlines]. rewrite readLines_from_line by exact Hl.
  now rewrite append_nil_l, IH.
Qed.

Lemma copy_loop_unlines (skip : string -> bool) (ls : list string) :
  forall out,
    fold_left
      (fun out line =>
         if skip line then out else (out +:+ line) +:+ String LF EmptyString)
      ls out =
    out +:+ unlines (filter (fun l => skip l = false) ls).
Proof.
  induction ls as [| l ls IH]; intros out; cbn [fold_left].
  - cbn [filter list_filter unlines]. now rewrite append_nil_r.
  - rewrite IH. rewrite filter_cons.
    destruct (skip l) eqn:Hskip.
    + destruct (decide (true = false)); [discriminate | reflexivity].
    + destruct (decide (false = false)); [| contradiction].
      cbn [unlines]. rewrite !append_assoc, append_cons, append_nil_l.
      reflexivity.
Qed.

(** The lines of the copy are the lines of the original that are not
    skipped. *)
Lemma readLines_copy_unless (skip : string -> bool) (input : string) :
  readLines (copy_unless skip input) =
  filter (fun l => skip l = false) (readLines input).
Proof.
  unfold copy_unless. rewrite copy_loop_unlines, append_nil_l.
  apply readLines_unlines.
  apply List.Forall_forall. intros l Hl.
  apply list_elem_of_In, list_elem_of_filter in Hl as [_ Hl].
  pose proof (readLines_eol_free input) as Hall.
  rewrite List.Forall_forall in Hall. apply Hall. now apply list_elem_of_In.
Qed.

(** *** The steps of [delete] *)

Lemma write_over_new (bytes : string) : write_over EmptyString bytes = bytes.
Proof.
  unfold write_over.
  replace (String.substring _ _ EmptyString) with EmptyString
    by (destruct (String.length bytes), (String.length EmptyString - String.length bytes)%nat;
        reflexivity).
  apply append_nil_r.
Qed.

Lemma forEach_kill (l : list Task) :
  forall h, exists sigs,
    forEach (fun p => kill (pid p) SIGUSR2) l h =
    (inr tt, {| files := files h; dirs := dirs h; procs := procs h;
                signals := sigs |}).
Proof.
  induction l as [| p l IH]; intros h.
  - exists (signals h). destruct h; reflexivity.
  - cbn [forEach]. unfold bind. unfold kill at 1.
    destruct (IH {| files := files h; dirs := dirs h; procs := procs h;
                    signals := (pid p, SIGUSR2) :: signals h |}) as [sigs ->].
    exists sigs. reflexivity.
Qed.

Section Steps.

Variable CG_ROOT : string.
Variable CG_SUBSYSTEMS : list string.
Variable this : Cgroup.

(** The two files after the two updates of [delete]. *)
Lemma updates (h : Host) :
  exists hu,
    bind (update_cgconfig CG_ROOT this None)
         (fun _ => update_cgrules CG_ROOT CG_SUBSYSTEMS this false) h = (inr tt, hu) /\
    dirs hu = dirs h /\
    files hu !! CGRULES =
      Some (write_over (default EmptyString (files h !! (CGRULES +:+ "~")))
              (copy_unless (String.prefix (uuid this))
                 (default EmptyString (files h !! CGRULES)))) /\
    files hu !! CGCONFIG =
      Some (write_over (default EmptyString (files h !! (CGCONFIG +:+ "~")))
              (copy_unless (String.prefix (group_prefix CG_ROOT this))
                 (default EmptyString (files h !! CGCONFIG)))) /\
    files hu !! (CGRULES +:+ "~") = None /\
    files hu !! (CGCONFIG +:+ "~") = None.
Proof.
  unfold update_cgconfig, update_cgrules, bind, overwrite_with_safe_swap, processes.
  cbn [files dirs procs signals].
  match goal with
  | |- context [forEach ?f ?l ?h0] => destruct (forEach_kill l h0) as [sigs ->]
  end.
  eexists. split; [reflexivity |]. cbn [files dirs].
  change (CGRULES +:+ "~") with "/etc/cgrules.conf~".
  change (CGCONFIG +:+ "~") with "/etc/cgconfig.conf~".
  change CGRULES with "/etc/cgrules.conf".
  change CGCONFIG with "/etc/cgconfig.conf".
  rewrite !append_nil_r.
  repeat split.
  - rewrite lookup_insert_eq.
    rewrite !lookup_insert_ne, !lookup_delete_ne by discriminate.
    reflexivity.
  - rewrite lookup_insert_ne, lookup_delete_ne, lookup_insert_eq by discriminate.
    reflexivity.
  - rewrite lookup_insert_ne by discriminate. apply lookup_delete_eq.
  - rewrite lookup_insert_ne, lookup_delete_ne, lookup_insert_ne by discriminate.
    apply lookup_delete_eq.
Qed.

(** Removing directories that are there or not. *)
Lemma cgdelete_paths (paths : list (string * string)) :
  forall h r h',
    forEach (fun e => _ <- deleteIfExists e.2 ;; ret tt) paths h = (r, h') ->
    files h' = files h /\
    (forall q, dirs h !! q = None -> dirs h' !! q = None) /\
    (r = inr tt -> forall subsys path, (subsys, path) ∈ paths -> dirs h' !! path = None).
Proof.
  induction paths as [| [subsys0 path0] paths IH]; intros h r h' Hrun.
  - cbn in Hrun. injection Hrun as <- <-.
    repeat split; auto. intros _ ? ? Hin. inversion Hin.
  - cbn [forEach] in Hrun. unfold bind at 1 2, deleteIfExists, ret in Hrun.
    cbn [snd] in Hrun.
    destruct (dirs h !! path0) as [[|] |] eqn:Hdir.
    + (* in use *)
      injection Hrun as <- <-.
      repeat split; auto. discriminate.
    + (* removed *)
      apply IH in Hrun as (Hfiles & Hkeep & Hgone). cbn [files dirs] in *.
      split; [exact Hfiles |]. split.
      * intros q Hq. apply Hkeep.
        destruct (decide (path0 = q)) as [-> | Hne];
          [apply lookup_delete_eq | now rewrite lookup_delete_ne].
      * intros Hr subsys path Hin.
        apply elem_of_cons in Hin as [Heq | Hin]; [| eapply Hgone; eauto].
        injection Heq as -> ->. apply Hkeep, lookup_delete_eq.
    + (* not there *)
      apply IH in Hrun as (Hfiles & Hkeep & Hgone).
      split; [exact Hfiles |]. split; [exact Hkeep |].
      intros Hr subsys path Hin.
      apply elem_of_cons in Hin as [Heq | Hin]; [| eapply Hgone; eauto].
      injection Heq as -> ->. apply Hkeep, Hdir.
Qed.

(** With no directory left there is nothing to remove, and no error. *)
Lemma cgdelete_nothing (paths : list (string * string)) (h : Host) :
  (forall subsys path, (subsys, path) ∈ paths -> dirs h !! path = None) ->
  forEach (fun e => _ <- deleteIfExists e.2 ;; ret tt) paths h = (inr tt, h).
Proof.
  induction paths as [| [subsys0 path0] paths IH]; intros Hnone; [reflexivity |].
  cbn [forEach]. unfold bind at 1 2, deleteIfExists, ret. cbn [snd].
  rewrite (Hnone subsys0 path0) by (left).
  apply IH. intros subsys path Hin. apply (Hnone subsys path). now right.
Qed.

End Steps.

(** C8.  When a call of [delete] has returned, a second call returns
    without an exception too; after it, as already after the first, none
    of the directories of the cgroup exists, and no line of the rules file
    starts with the uuid and no line of the configuration file with the
    group of the uuid. *)
Theorem delete_idempotent (CG_ROOT : string) (CG_SUBSYSTEMS : list string)
    (this : Cgroup) (h h1 : Host) :
  delete CG_ROOT CG_SUBSYSTEMS this h = (inr tt, h1) ->
  no_directory this h1 /\
  exists h2,
    delete CG_ROOT CG_SUBSYSTEMS this h1 = (inr tt, h2) /\
    no_directory this h2 /\
    ~ has_line h2 CGRULES (uuid this) /\
    ~ has_line h2 CGCONFIG (group_prefix CG_ROOT this).
Proof.
  intros Hfirst.
  (* the first call *)
  assert (Hdelete : forall h0,
            delete CG_ROOT CG_SUBSYSTEMS this h0 =
            bind (bind (update_cgconfig CG_ROOT this None)
                       (fun _ => update_cgrules CG_ROOT CG_SUBSYSTEMS this false))
                 (fun _ => cgdelete this) h0).
  { intros h0. unfold delete, bind.
    destruct (update_cgconfig CG_ROOT this None h0) as [[e | []] h0']; reflexivity. }
  rewrite Hdelete in Hfirst. unfold bind at 1 in Hfirst.
  destruct (updates CG_ROOT CG_SUBSYSTEMS this h)
    as (hu & Hu & Hdirs & _ & _ & Htmp1 & Htmp2).
  rewrite Hu in Hfirst. unfold cgdelete in Hfirst.
  apply cgdelete_paths in Hfirst as (Hfiles1 & _ & Hgone1).
  specialize (Hgone1 eq_refl).
  split; [exact Hgone1 |].
  (* the second call *)
  destruct (updates CG_ROOT CG_SUBSYSTEMS this h1)
    as (hu2 & Hu2 & Hdirs2 & Hrules & Hconfig & _ & _).
  exists hu2. rewrite Hdelete. unfold bind at 1. rewrite Hu2.
  assert (Hnone : no_directory this hu2).
  { intros subsys path Hin. rewrite Hdirs2. eapply Hgone1, Hin. }
  split; [apply cgdelete_nothing, Hnone |]. split; [exact Hnone |].
  rewrite Hfiles1, Htmp1 in Hrules. rewrite Hfiles1, Htmp2 in Hconfig.
  cbn [default] in Hrules, Hconfig. rewrite write_over_new in Hrules, Hconfig.
  split; intros (line & Hline & Hstart).
  - rewrite Hrules in Hline. cbn [default from_option id] in Hline.
    rewrite readLines_copy_unless in Hline.
    apply list_elem_of_filter in Hline as [Hskip _]. congruence.
  - rewrite Hconfig in Hline. cbn [default from_option id] in Hline.
    rewrite readLines_copy_unless in Hline.
    apply list_elem_of_filter in Hline as [Hskip _]. congruence.
Qed.

Lemma delete_idempotent_witness :
  let h1 := (delete "/cloudway" ["cpu"; "memory"] example_cgroup example_host).2 in
  delete "/cloudway" ["cpu"; "memory"] example_cgroup example_host = (inr tt, h1) /\
  no_directory example_cgroup h1 /\
  exists h2,
    delete "/cloudway" ["cpu"; "memory"] example_cgroup h1 = (inr tt, h2) /\
    no_directory example_cgroup h2 /\
    ~ has_line h2 CGRULES (uuid example_cgroup) /\
    ~ has_line h2 CGCONFIG (group_prefix "/cloudway" example_cgroup).
Proof.
  intros h1.
  assert (Hfirst : delete "/cloudway" ["cpu"; "memory"] example_cgroup example_host
                   = (inr tt, h1)) by (vm_compute; reflexivity).
  split; [exact Hfirst |].
  apply (delete_idempotent "/cloudway" ["cpu"; "memory"] example_cgroup
           example_host h1 Hfirst).
Defined.

End CgroupProofs.

(** ** Users *)

Module BrokerProofs.
Import Broker.

(** Reading the fields of a world that is written out, and the parts of
    a pair. *)
Ltac world := cbn [users scm hub containers faults calls fst snd].
Ltac world_in H := cbn [users scm hub containers faults calls fst snd] in H.

(** C1.  [CreateUser] first calls the user database.  When no user of
    that name exists the record is written, and then: for an empty
    namespace nothing else is called and the record stays; for a namespace
    that the SCM creates, the record stays and the namespace is known to the
    SCM; for a namespace that the SCM fails to create, the user is removed
    again from the database, after the SCM call, the error of the SCM is
    returned, and the database is as it was, without a record of the user.
    When the database refuses the record, its error is returned and nothing
    else is called. *)
Theorem CreateUser_rolls_back (user : BasicUser) (password : string) (w : World) :
  let r := CreateUser user password w in
  let record := {| st_Namespace := Namespace user; st_Password := password |} in
  (users w !! Name user = None -> Namespace user = EmptyString ->
   r.1 = None /\
   calls r.2 = calls w ++ [UsersCreate (Name user)] /\
   users r.2 !! Name user = Some record) /\
  (users w !! Name user = None -> Namespace user <> EmptyString ->
   faults w (SCMCreateNamespace (Namespace user)) = None ->
   r.1 = None /\
   calls r.2 = calls w ++ [UsersCreate (Name user);
                           SCMCreateNamespace (Namespace user)] /\
   users r.2 !! Name user = Some record /\
   Namespace user ∈ scm r.2) /\
  (forall err,
     users w !! Name user = None -> Namespace user <> EmptyString ->
     faults w (SCMCreateNamespace (Namespace user)) = Some err ->
     r.1 = Some err /\
     calls r.2 = calls w ++ [UsersCreate (Name user);
                             SCMCreateNamespace (Namespace user);
                             UsersRemove (Name user)] /\
     users r.2 !! Name user = None /\
     users r.2 = users w /\
     scm r.2 = scm w) /\
  (forall old,
     users w !! Name user = Some old ->
     r.1 = Some (DuplicateUserError (Name user)) /\
     calls r.2 = calls w ++ [UsersCreate (Name user)] /\
     users r.2 = users w).
Proof.
  intros r record. subst r record.
  unfold CreateUser, Users_Create, SCM_CreateNamespace, Users_Remove,
    bind, call, get, set_users, set_scm, ret.
  world.
  split; [| split; [| split]].
  - intros Hnew Hns. rewrite Hnew, Hns.
    world.
    rewrite bool_decide_eq_false_2 by (intros H; apply H; reflexivity).
    world.
    repeat split. apply lookup_insert_eq.
  - intros Hnew Hns Hok. rewrite Hnew.
    world.
    rewrite bool_decide_eq_true_2 by exact Hns.
    world. rewrite Hok.
    world.
    repeat split.
    + now rewrite <- app_assoc.
    + apply lookup_insert_eq.
    + set_solver.
  - intros err Hnew Hns Hfail. rewrite Hnew.
    world.
    rewrite bool_decide_eq_true_2 by exact Hns.
    world. rewrite Hfail.
    world.
    rewrite lookup_insert_eq.
    world.
    repeat split.
    + now rewrite <- !app_assoc.
    + apply lookup_delete_eq.
    + rewrite delete_insert_eq. apply delete_id, Hnew.
  - intros old Hold. rewrite Hold.
    world.
    repeat split.
Qed.

Lemma CreateUser_rolls_back_witness :
  users example_world !! "carol" = None /\
  "team2" <> EmptyString /\
  faults example_world (SCMCreateNamespace "team2") =
    Some (errors_New "scm: connection refused") /\
  let r := CreateUser {| Name := "carol"; Namespace := "team2" |} "c" example_world in
  r.1 = Some (errors_New "scm: connection refused") /\
  calls r.2 = calls example_world ++
              [UsersCreate "carol"; SCMCreateNamespace "team2"; UsersRemove "carol"] /\
  users r.2 !! "carol" = None /\
  users r.2 = users example_world /\
  scm r.2 = scm example_world.
Proof.
  assert (Hnew : users example_world !! "carol" = None) by reflexivity.
  assert (Hns : "team2" <> EmptyString) by discriminate.
  assert (Hfail : faults example_world (SCMCreateNamespace "team2") =
                  Some (errors_New "scm: connection refused")) by reflexivity.
  split; [exact Hnew |]. split; [exact Hns |]. split; [exact Hfail |].
  exact (proj1 (proj2 (proj2
           (CreateUser_rolls_back {| Name := "carol"; Namespace := "team2" |}
              "c" example_world)))
         (errors_New "scm: connection refused") Hnew Hns Hfail).
Defined.

(** *** Removing a user *)

Lemma destroy_all_spec (cs : list Container) :
  forall (errors : list error) (w : World),
    exists w',
      destroy_all cs errors w = (errors ++ destroy_failures w cs, w') /\
      users w' = users w /\ scm w' = scm w /\ hub w' = hub w /\
      faults w' = faults w /\
      calls w' = calls w ++ map (fun c => DestroyContainer (ID c)) cs.
Proof.
  induction cs as [| c cs IH]; intros errors w.
  - exists w. cbn. rewrite !app_nil_r. repeat split.
  - cbn [destroy_all]. unfold bind at 1, Destroy at 1.
    unfold bind, call, get, set_containers, ret.
    cbn [users scm hub containers faults calls fst snd destroy_failures omap list_omap].
    fold (destroy_failures w cs).
    destruct (faults w (DestroyContainer (ID c))) as [err |] eqn:Hfault.
    + match goal with
      | |- context [destroy_all cs ?e ?w0] =>
          destruct (IH e w0) as (w' & -> & Hu & Hs & Hh & Hf & Hc)
      end.
      cbn [users scm hub containers faults calls] in *.
      exists w'. unfold destroy_failures at 1.
      rewrite Hf. fold (destroy_failures w cs).
      cbn [Errors_Add]. rewrite <- !app_assoc. cbn [app map].
      rewrite Hc, <- app_assoc. repeat split; assumption.
    + match goal with
      | |- context [destroy_all cs ?e ?w0] =>
          destruct (IH e w0) as (w' & -> & Hu & Hs & Hh & Hf & Hc)
      end.
      cbn [users scm hub containers faults calls] in *.
      exists w'. unfold destroy_failures at 1.
      rewrite Hf. fold (destroy_failures w cs).
      cbn [Errors_Add map]. rewrite Hc, <- app_assoc. repeat split; assumption.
Qed.

Lemma Errors_Err_mentions (errors : list error) (err : error) :
  err ∈ errors -> exists errs, Errors_Err errors = Some (Errors errs) /\ err ∈ errs.
Proof.
  intros Hin. destruct errors as [| e errors]; [inversion Hin |].
  exists (e :: errors). split; [reflexivity | exact Hin].
Qed.

(** C2 (as amended).  For a user that exists and has a namespace,
    [RemoveUser] makes all its calls whatever fails: it looks up the
    containers of the namespace and destroys every one it finds, going on
    after a container that cannot be destroyed (when the lookup itself
    fails there is no container to destroy, and the failure is kept); it
    removes the namespace from the SCM, then from the plugin hub, and then
    the user from the database.  It returns the aggregate of all failures,
    in the order of the calls, or nil when there is none.  The user record
    is removed in every case; in particular when the SCM fails, and then
    the aggregate holds the error of the SCM.  For a user without namespace
    the database is the only collaborator called. *)
Theorem RemoveUser_best_effort (username : string) (st : Stored) (w : World) :
  users w !! username = Some st ->
  let ns := st_Namespace st in
  let r := RemoveUser username w in
  users r.2 = delete username (users w) /\
  (ns <> EmptyString ->
   (faults w (FindContainers ns) = None ->
    calls r.2 =
      calls w ++ [UsersFind username; FindContainers ns] ++
      map (fun c => DestroyContainer (ID c)) (found_in w ns) ++
      [SCMRemoveNamespace ns; HubRemoveNamespace ns; UsersRemove username] /\
    r.1 = Errors_Err (destroy_failures w (found_in w ns) ++
                      failure w (SCMRemoveNamespace ns))) /\
   (forall err, faults w (FindContainers ns) = Some err ->
    calls r.2 =
      calls w ++ [UsersFind username; FindContainers ns;
                  SCMRemoveNamespace ns; HubRemoveNamespace ns;
                  UsersRemove username] /\
    r.1 = Errors_Err (err :: failure w (SCMRemoveNamespace ns))) /\
   (forall err, faults w (SCMRemoveNamespace ns) = Some err ->
    exists errs, r.1 = Some (Errors errs) /\ err ∈ errs) /\
   hub r.2 = hub w ∖ {[ ns ]}) /\
  (ns = EmptyString ->
   calls r.2 = calls w ++ [UsersFind username; UsersRemove username] /\
   r.1 = None).
Proof.
  intros Huser ns r.
  assert (Hr : r = RemoveUser username w) by reflexivity. clearbody r.
  unfold RemoveUser, Users_Find, FindInNamespace, SCM_RemoveNamespace,
    Hub_RemoveNamespace, Users_Remove, bind, call, get, set_users, set_scm,
    set_hub, ret in Hr.
  cbn [users scm hub containers faults calls fst snd Name Namespace] in Hr.
  rewrite Huser in Hr. cbn [Name Namespace] in Hr. fold ns in Hr.
  destruct (decide (ns = EmptyString)) as [Hns | Hns].
  - (* no namespace *)
    rewrite bool_decide_eq_false_2 in Hr by (intros H; apply H, Hns).
    cbn [users scm hub containers faults calls fst snd Errors_Add Errors_Err] in Hr.
    rewrite Huser in Hr.
    cbn [users scm hub containers faults calls fst snd Errors_Add Errors_Err] in Hr.
    subst r. cbn [users calls fst snd].
    split; [reflexivity |]. split; [intros H; contradiction |].
    intros _. split; [now rewrite <- app_assoc | reflexivity].
  - rewrite bool_decide_eq_true_2 in Hr by exact Hns.
    world_in Hr.
    split.
    { (* the user record is removed *)
      destruct (faults w (FindContainers ns)) as [ferr |].
      - world_in Hr.
        destruct (faults w (SCMRemoveNamespace ns));
          world_in Hr;
          rewrite Huser in Hr; subst r; reflexivity.
      - match type of Hr with
        | context [destroy_all ?cs ?e ?w0] =>
            destruct (destroy_all_spec cs e w0) as (w1 & Hrun & Hu & _ & _ & Hf & _)
        end.
        rewrite Hrun in Hr.
        cbn [users scm hub containers faults calls fst snd] in Hr, Hu, Hf.
        rewrite Hf, Hu in Hr.
        destruct (faults w (SCMRemoveNamespace ns));
          world_in Hr;
          rewrite ?Hu, Huser in Hr; subst r; reflexivity. }
    split; [| intros H; contradiction]. intros _.
    unfold failure.
    destruct (faults w (FindContainers ns)) as [ferr |] eqn:Hfind.
    + (* the lookup of the containers fails *)
      cbn [users scm hub containers faults calls fst snd Errors_Add] in Hr.
      split; [intros H; discriminate |].
      destruct (faults w (SCMRemoveNamespace ns)) as [serr |] eqn:Hscm;
        cbn [users scm hub containers faults calls fst snd Errors_Add] in Hr;
        rewrite Huser in Hr; subst r;
        cbn [users scm hub containers faults calls fst snd Errors_Add Errors_Err app].
      * split; [intros err [= <-]; split;
                  [now rewrite <- !app_assoc | reflexivity] |].
        split; [| reflexivity].
        intros err [= <-]. eexists. split; [reflexivity |].
        apply elem_of_cons. right. now apply list_elem_of_singleton.
      * split; [intros err [= <-]; split;
                  [now rewrite <- !app_assoc | reflexivity] |].
        split; [| reflexivity]. intros err H. discriminate.
    + (* every container found is destroyed *)
      match type of Hr with
      | context [destroy_all ?cs ?e ?w0] =>
          destruct (destroy_all_spec cs e w0) as (w1 & Hrun & Hu & Hs & Hh & Hf & Hc);
          assert (Hfail : destroy_failures w0 cs = destroy_failures w (found_in w ns))
            by reflexivity
      end.
      rewrite Hrun, Hfail in Hr.
      cbn [users scm hub containers faults calls fst snd] in Hr, Hu, Hs, Hh, Hf, Hc.
      fold (found_in w ns) in Hc.
      rewrite Hf, Hu, Hh, Hc in Hr. cbn [app] in Hr.
      split; [intros _ | split; [intros err H; discriminate |]].
      * destruct (faults w (SCMRemoveNamespace ns)) as [serr |] eqn:Hscm;
          cbn [users scm hub containers faults calls fst snd Errors_Add] in Hr;
          rewrite ?Hu, ?Hh, ?Hc, Huser in Hr; subst r;
          cbn [users scm hub containers faults calls fst snd Errors_Add Errors_Err app];
          (split; [rewrite <- !app_assoc; reflexivity |]).
        -- reflexivity.
        -- now rewrite app_nil_r.
      * destruct (faults w (SCMRemoveNamespace ns)) as [serr |] eqn:Hscm;
          cbn [users scm hub containers faults calls fst snd Errors_Add] in Hr;
          rewrite ?Hu, ?Hh, ?Hc, Huser in Hr; subst r;
          cbn [users scm hub containers faults calls fst snd Errors_Add Errors_Err app];
          (split; [| reflexivity]).
        -- intros err [= <-]. apply Errors_Err_mentions.
           apply elem_of_app. right. now apply list_elem_of_singleton.
        -- intros err H. discriminate.
Qed.


Lemma RemoveUser_best_effort_witness :
  users example_world !! "alice" = Some {| st_Namespace := "team"; st_Password := "a" |} /\
  "team" <> EmptyString /\
  faults example_world (FindContainers "team") = None /\
  faults example_world (SCMRemoveNamespace "team") =
    Some (errors_New "scm: connection refused") /\
  let r := RemoveUser "alice" example_world in
  users r.2 = delete "alice" (users example_world) /\
  calls r.2 =
    calls example_world ++ [UsersFind "alice"; FindContainers "team"] ++
    map (fun c => DestroyContainer (ID c)) (found_in example_world "team") ++
    [SCMRemoveNamespace "team"; HubRemoveNamespace "team"; UsersRemove "alice"] /\
  r.1 = Errors_Err (destroy_failures example_world (found_in example_world "team") ++
                    failure example_world (SCMRemoveNamespace "team")) /\
  exists errs, r.1 = Some (Errors errs) /\ errors_New "scm: connection refused" ∈ errs.
Proof.
  assert (Huser : users example_world !! "alice" =
                  Some {| st_Namespace := "team"; st_Password := "a" |})
    by reflexivity.
  assert (Hns : "team" <> EmptyString) by discriminate.
  assert (Hfind : faults example_world (FindContainers "team") = None)
    by reflexivity.
  assert (Hscm : faults example_world (SCMRemoveNamespace "team") =
                 Some (errors_New "scm: connection refused")) by reflexivity.
  split; [exact Huser |]. split; [exact Hns |]. split; [exact Hfind |].
  split; [exact Hscm |].
  destruct (RemoveUser_best_effort "alice" _ example_world Huser)
    as (Hgone & Hsteps & _).
  destruct (Hsteps Hns) as (Hfound & _ & Hmentions & _).
  destruct (Hfound Hfind) as (Hcalls & Hresult).
  split; [exact Hgone |]. split; [exact Hcalls |]. split; [exact Hresult |].
  exact (Hmentions _ Hscm).
Defined.

(** C2, as the claim has it, fails for a user without namespace: bob
    exists, and removing him calls the database only, not the SCM and not
    the plugin hub. *)
Lemma RemoveUser_without_namespace :
  users example_world !! "bob" =
    Some {| st_Namespace := EmptyString; st_Password := "b" |} /\
  calls (RemoveUser "bob" example_world).2 = [UsersFind "bob"; UsersRemove "bob"] /\
  (RemoveUser "bob" example_world).1 = None /\
  (SCMRemoveNamespace EmptyString ∉ calls (RemoveUser "bob" example_world).2) /\
  (HubRemoveNamespace EmptyString ∉ calls (RemoveUser "bob" example_world).2).
Proof.
  assert (Hcalls : calls (RemoveUser "bob" example_world).2 =
                   [UsersFind "bob"; UsersRemove "bob"]) by reflexivity.
  split; [reflexivity |]. split; [exact Hcalls |]. split; [reflexivity |].
  rewrite Hcalls.
  split; intros Hin;
    repeat (apply elem_of_cons in Hin as [Hin | Hin]; [discriminate |]);
    inversion Hin.
Qed.

End BrokerProofs.

(** ** The completion of an exec *)

Module ContainerExecProofs.
Import Stdcopy ContainerExec.

(** *** chomp *)

Lemma append_last_inv (c c' : ascii) (t t' : string) :
  String c t = t' +:+ String c' EmptyString ->
  (t = EmptyString /\ t' = EmptyString /\ c = c') \/
  (exists t'', t' = String c t'' /\ t = t'' +:+ String c' EmptyString).
Proof.
  destruct t' as [| d t'']; intros H.
  - change (String c t = String c' EmptyString) in H.
    injection H as -> ->. left. auto.
  - change (String c t = String d (t'' +:+ String c' EmptyString)) in H.
    injection H as -> ->. right. eauto.
Qed.

Lemma TrimRight_chomped (s : string) : chomped s (TrimRight s CRLF).
Proof.
  induction s as [| c s (tail & Hs & Htail & Hlast)].
  - exists EmptyString. repeat split.
    intros c [| d t'] H; discriminate.
  - cbn [TrimRight]. destruct (TrimRight s CRLF) as [| d t] eqn:Htrim.
    + change (EmptyString +:+ tail) with tail in Hs. subst tail.
      destruct (in_cutset c CRLF) eqn:Hc.
      * exists (String c s). repeat split.
        -- cbn [String.list_ascii_of_string forallb]. now rewrite Hc, Htail.
        -- intros c' [| d t'] H; discriminate.
      * exists s. repeat split; [exact Htail |].
        intros c' t' H. apply append_last_inv in H as [(_ & _ & <-) | (t'' & _ & H)];
          [exact Hc |].
        destruct t''; discriminate.
    + exists tail. split; [| split; [exact Htail |]].
      * rewrite Hs. reflexivity.
      * intros c' t' H. apply append_last_inv in H as [(H & _) | (t'' & _ & H)];
          [discriminate |].
        eapply Hlast, H.
Qed.

(** *** What reaches the sinks *)

Lemma get_sink_set_sink {W : Type} (s : Sinks W) (d d' : Dest) (w : W) :
  get_sink (set_sink s d w) d' = if decide (d = d') then Some w else get_sink s d'.
Proof. destruct d, d'; reflexivity. Qed.

Lemma get_sink_deliver (fs : list Frame) :
  forall (s : Sinks Buffer) (d : Dest),
    get_sink (fold_left deliver fs s) d =
    (fun b => b ++ written_to d fs) <$> get_sink s d.
Proof.
  induction fs as [| f fs IH]; intros s d.
  - cbn. destruct (get_sink s d); cbn; [now rewrite app_nil_r | reflexivity].
  - cbn [fold_left]. rewrite IH. unfold deliver, written_to.
    rewrite filter_cons.
    destruct (decide (sink_of (f_type f) = d)) as [<- | Hne].
    + destruct (get_sink s (sink_of (f_type f))) as [b |] eqn:Hb.
      * rewrite get_sink_set_sink.
        destruct (decide (sink_of (f_type f) = sink_of (f_type f))); [| contradiction].
        cbn. now rewrite <- app_assoc.
      * rewrite Hb. reflexivity.
    + destruct (get_sink s (sink_of (f_type f))) as [b |]; [| reflexivity].
      rewrite get_sink_set_sink.
      destruct (decide (sink_of (f_type f) = d)); [contradiction | reflexivity].
Qed.

Lemma pumpStreams_frames (fs : list Frame) (cs : list (list byte)) (e : bool)
    (stdin : option (list byte)) (stdout stderr : option Buffer) (fuel : nat) :
  Forall fits fs ->
  concat cs = concat (map encode fs) ->
  (length cs + length fs + 1 < fuel)%nat ->
  (stdout <> None \/ stderr <> None) ->
  pumpStreams fuel stdin stdout stderr {| chunks := cs; eof_with_data := e |} =
  Some (None, ((fun b => b ++ written_to ToStdout fs) <$> stdout,
               (fun b => b ++ written_to ToStderr fs) <$> stderr)).
Proof.
  intros Hfits Hstream Hfuel Hsink.
  assert (Hcopy : Copy fuel {| dstout := stdout; dsterr := stderr; data := None |}
                    {| chunks := cs; eof_with_data := e |} =
                  Some {| c_written := int64 (payload_bytes fs); c_err := None;
                          c_sinks := fold_left deliver fs
                            {| dstout := stdout; dsterr := stderr; data := None |};
                          c_src := {| chunks := []; eof_with_data := e |} |}).
  { apply (StdcopyProofs.Copy_frames fs []); auto.
    - apply truncated_header. unfold stdWriterPrefixLen. simpl. lia.
    - now rewrite app_nil_r. }
  assert (Hout := get_sink_deliver fs
            {| dstout := stdout; dsterr := stderr; data := None |} ToStdout).
  assert (Herr := get_sink_deliver fs
            {| dstout := stdout; dsterr := stderr; data := None |} ToStderr).
  cbn [get_sink dstout dsterr] in Hout, Herr.
  unfold pumpStreams.
  destruct stdout as [out |], stderr as [err |];
    try (rewrite Hcopy; cbn [c_err c_sinks]; rewrite Hout, Herr; reflexivity).
  destruct Hsink; contradiction.
Qed.

(** C7.  When the engine calls of an exec succeed, the output of the
    process arrives as frames of the multiplexer, and the engine reports
    an exit code [code] other than 0: [Exec] returns a StatusError with
    that code and an empty message, whatever the sinks are; [ExecE] and
    [Subst] return a StatusError with that code whose message is what the
    process wrote to its standard error, and this text ends before the
    carriage returns and line feeds at its end. *)
Theorem Exec_reports_exit_code (engine : Engine) (c : Container) (user : string)
    (stdin : option (list byte)) (cmd : list string) (execId : string)
    (fs : list Frame) (cs : list (list byte)) (e : bool) (code : Z) (fuel : nat) :
  let execConfig := {|
    User := user; Tty := false;
    AttachStdin := match stdin with Some _ => true | None => false end;
    AttachStdout := true; AttachStderr := true; Cmd := cmd |} in
  docker_client engine = None ->
  ContainerExecCreate engine (ID c) execConfig = inr execId ->
  ContainerExecAttach engine execId execConfig =
    inr {| chunks := cs; eof_with_data := e |} ->
  Forall fits fs ->
  concat cs = concat (map encode fs) ->
  (length cs + length fs + 1 < fuel)%nat ->
  ContainerExecInspect engine execId = inr code ->
  code <> 0 ->
  (forall stdout stderr, exists sinks,
     Exec fuel engine c user stdin stdout stderr cmd =
     Some (Some (StatusError code EmptyString), sinks)) /\
  (forall out,
     ExecE fuel engine c user stdin out cmd =
     Some (Some (StatusError code (chomp (written_to ToStderr fs))),
           (fun b => b ++ written_to ToStdout fs) <$> out)) /\
  Subst fuel engine c user stdin cmd =
    Some (chomp (written_to ToStdout fs),
          Some (StatusError code (chomp (written_to ToStderr fs)))) /\
  chomped (String.string_of_list_byte (written_to ToStderr fs))
          (chomp (written_to ToStderr fs)).
Proof.
  intros execConfig Hclient Hcreate Hattach Hfits Hstream Hfuel Hinspect Hcode.
  assert (Hnz : negb (code =? 0) = true)
    by (apply negb_true_iff, Z.eqb_neq, Hcode).
  assert (Hexec : forall stdout stderr,
            (stdout <> None \/ stderr <> None) ->
            Exec fuel engine c user stdin stdout stderr cmd =
            Some (Some (StatusError code EmptyString),
                  ((fun b => b ++ written_to ToStdout fs) <$> stdout,
                   (fun b => b ++ written_to ToStderr fs) <$> stderr))).
  { intros stdout stderr Hsink. unfold Exec. fold execConfig.
    rewrite Hclient, Hcreate, Hattach.
    rewrite (pumpStreams_frames fs cs e stdin stdout stderr fuel) by assumption.
    now rewrite Hinspect, Hnz. }
  split; [| split; [| split]].
  - intros stdout stderr.
    destruct stdout as [out |] eqn:Hout; [| destruct stderr as [err |] eqn:Herr].
    + eexists. apply Hexec. left. discriminate.
    + eexists. apply Hexec. right. discriminate.
    + eexists. unfold Exec. fold execConfig.
      rewrite Hclient, Hcreate, Hattach. cbn [pumpStreams].
      now rewrite Hinspect, Hnz.
  - intros out. unfold ExecE.
    rewrite Hexec by (right; discriminate).
    cbn [fmap option_fmap option_map default from_option id String.eqb app].
    reflexivity.
  - unfold Subst. rewrite Hexec by (left; discriminate).
    cbn [fmap option_fmap option_map default from_option id String.eqb app].
    reflexivity.
  - apply TrimRight_chomped.
Qed.

Lemma Exec_reports_exit_code_witness :
  docker_client example_engine = None /\
  Forall fits example_output /\
  (1 + 2 + 1 < 5)%nat /\
  2 <> 0 /\
  ExecE 5 example_engine {| ID := "app-1" |} "root" None (Some []) ["false"] =
    Some (Some (StatusError 2 (chomp (written_to ToStderr example_output))),
          Some ([] ++ written_to ToStdout example_output)) /\
  chomp (written_to ToStderr example_output) = "boom".
Proof.
  assert (Hfits : Forall fits example_output)
    by (repeat constructor; unfold fits; simpl; lia).
  assert (Hfuel : (1 + 2 + 1 < 5)%nat) by lia.
  assert (Hcode : 2 <> 0) by discriminate.
  split; [reflexivity |]. split; [exact Hfits |]. split; [exact Hfuel |].
  split; [exact Hcode |].
  split; [| reflexivity].
  exact (proj1 (proj2
           (Exec_reports_exit_code example_engine {| ID := "app-1" |} "root" None
              ["false"] "exec-1" example_output
              [concat (map encode example_output)] false 2 5
              eq_refl eq_refl eq_refl Hfits (eq_sym (app_nil_r _)) Hfuel eq_refl
              Hcode))
         (Some [])).
Defined.

End ContainerExecProofs.
